(** * DocuMind: retrieval, reranking and front-end guards

    A shallow embedding of the code of the DocuMind repository that the
    retrieval-and-reranking specification talks about:

    - the adaptive scoring formula of ACCURACY_IMPROVEMENTS
      ("Scoring Algorithm"),
    - [search_with_reranking] and [classify_query_intent] of the RAG
      improvement notes,
    - [handleFileSelect] of [DocumentManager.jsx] and [handleQuery] of
      [Chat.jsx].

    The Python back end itself (query expander, lexical scorer, diversity
    reranker) is not among the source files; where a statement is about
    it, the definition is modelled from the specification and says so. *)

From Stdlib Require Import ZArith QArith String Ascii List Lia.
From Stdlib Require Import OrderedTypeEx Qminmax Floats.
From stdpp Require Import base list strings gmap sorting.

Local Open Scope string_scope.

(** ** Adaptive scoring (ACCURACY_IMPROVEMENTS, "Scoring Algorithm") *)

Module AdaptiveScoring.

Local Open Scope Q_scope.

(** The nine sub-scores of a candidate. The Python code has them as local
    float variables; the decimal literals and the arithmetic are read here
    as exact rationals. *)
Record SubScores : Type := mkSubScores {
  semantic : Q;
  lexical : Q;
  hyde : Q;
  concepts : Q;
  exclusions : Q;
  context : Q;
  multi : Q;
  length' : Q;
  metadata : Q
}.

(** [if query_type == 'definition': ... elif ... else: ...] *)
Definition score (query_type : string) (s : SubScores) : Q :=
  if String.eqb query_type "definition" then
    0.40 * semantic s + 0.25 * concepts s + 0.15 * lexical s + 0.10 * hyde s
    + 0.05 * context s + 0.05 * multi s
  else if String.eqb query_type "exclusion" then
    0.30 * semantic s + 0.30 * exclusions s + 0.20 * lexical s
    + 0.10 * context s + 0.10 * multi s
  else if String.eqb query_type "coverage" then
    0.35 * semantic s + 0.25 * lexical s + 0.15 * concepts s + 0.10 * hyde s
    + 0.10 * context s + 0.05 * multi s
  else
    0.35 * semantic s + 0.20 * lexical s + 0.15 * concepts s + 0.10 * hyde s
    + 0.08 * exclusions s + 0.07 * context s + 0.03 * length' s
    + 0.02 * metadata s.

(** The four query types of the specification and their spelling in the
    code. *)
Inductive QueryType : Type := Definition_ | Exclusion | Coverage | General.

Definition name (t : QueryType) : string :=
  match t with
  | Definition_ => "definition"
  | Exclusion => "exclusion"
  | Coverage => "coverage"
  | General => "general"
  end.

Inductive Signal : Type :=
| Semantic | Lexical | Hyde | Concepts | Exclusions | Context | Multi
| Length | Metadata.

Definition all_signals : list Signal :=
  [Semantic; Lexical; Hyde; Concepts; Exclusions; Context; Multi; Length;
   Metadata].

Definition get (g : Signal) (s : SubScores) : Q :=
  match g with
  | Semantic => semantic s
  | Lexical => lexical s
  | Hyde => hyde s
  | Concepts => concepts s
  | Exclusions => exclusions s
  | Context => context s
  | Multi => multi s
  | Length => length' s
  | Metadata => metadata s
  end.

(** The candidate whose only non-zero sub-score is [g], at 1. *)
Definition unit_scores (g : Signal) : SubScores :=
  let b (h : Signal) : Q :=
    match g, h with
    | Semantic, Semantic | Lexical, Lexical | Hyde, Hyde
    | Concepts, Concepts | Exclusions, Exclusions | Context, Context
    | Multi, Multi | Length, Length | Metadata, Metadata => 1
    | _, _ => 0
    end in
  mkSubScores (b Semantic) (b Lexical) (b Hyde) (b Concepts) (b Exclusions)
              (b Context) (b Multi) (b Length) (b Metadata).

(** The weight the formula gives signal [g] under [query_type]: what the
    score of the unit candidate of [g] is. *)
Definition weight (query_type : string) (g : Signal) : Q :=
  score query_type (unit_scores g).

Definition Qsum (l : list Q) : Q := fold_right Qplus 0 l.

Definition weighted_sum (query_type : string) (s : SubScores) : Q :=
  Qsum (map (fun g => weight query_type g * get g s) all_signals).

(** The signals a query type's formula leaves out. *)
Definition left_out (t : QueryType) : list Signal :=
  match t with
  | Definition_ => [Exclusions; Length; Metadata]
  | Exclusion => [Hyde; Concepts; Length; Metadata]
  | Coverage => [Exclusions; Length; Metadata]
  | General => [Multi]
  end.

End AdaptiveScoring.

(** ** The scoring formula in binary64

    Python evaluates the formula in IEEE 754 double precision, from left to
    right. The same formula over Rocq's primitive floats, whose literals
    round to the nearest binary64 value as Python's do. *)

Module AdaptiveScoringBinary64.

#[local] Set Warnings "-inexact-float".
Local Open Scope float_scope.

Record SubScores : Type := mkSubScores {
  semantic : float;
  lexical : float;
  hyde : float;
  concepts : float;
  exclusions : float;
  context : float;
  multi : float;
  length' : float;
  metadata : float
}.

Definition score (query_type : string) (s : SubScores) : float :=
  if String.eqb query_type "definition" then
    0.40 * semantic s + 0.25 * concepts s + 0.15 * lexical s + 0.10 * hyde s
    + 0.05 * context s + 0.05 * multi s
  else if String.eqb query_type "exclusion" then
    0.30 * semantic s + 0.30 * exclusions s + 0.20 * lexical s
    + 0.10 * context s + 0.10 * multi s
  else if String.eqb query_type "coverage" then
    0.35 * semantic s + 0.25 * lexical s + 0.15 * concepts s + 0.10 * hyde s
    + 0.10 * context s + 0.05 * multi s
  else
    0.35 * semantic s + 0.20 * lexical s + 0.15 * concepts s + 0.10 * hyde s
    + 0.08 * exclusions s + 0.07 * context s + 0.03 * length' s
    + 0.02 * metadata s.

(** The candidate with every sub-score at 1.0: its score is the sum of the
    weights, added in the order of the formula. *)
Definition all_ones : SubScores := mkSubScores 1 1 1 1 1 1 1 1 1.

End AdaptiveScoringBinary64.

(** ** Python string helpers *)

Module PyStr.

(** [str.lower()] on the ASCII range; other characters are left as they
    are. *)
Definition lower_char (c : ascii) : ascii :=
  let n := nat_of_ascii c in
  if (65 <=? n)%nat && (n <=? 90)%nat then ascii_of_nat (n + 32) else c.

Fixpoint lower (s : string) : string :=
  match s with
  | EmptyString => EmptyString
  | String c s' => String (lower_char c) (lower s')
  end.

(** [w in s]: [w] occurs in [s] as a substring. *)
Fixpoint contains (w s : string) : bool :=
  String.prefix w s
  || match s with
     | EmptyString => false
     | String _ s' => contains w s'
     end.

(** [any(word in s for word in words)] *)
Definition any_in (words : list string) (s : string) : bool :=
  existsb (fun word => contains word s) words.

(** [sep.join(parts)] *)
Fixpoint join (sep : string) (parts : list string) : string :=
  match parts with
  | [] => ""
  | [p] => p
  | p :: rest => p ++ sep ++ join sep rest
  end.

(** The characters of [s] in reverse order. *)
Fixpoint rev (s : string) : string :=
  match s with
  | EmptyString => EmptyString
  | String c s' => rev s' ++ String c EmptyString
  end.

(** [l[:k]] for a Python integer [k]: a negative [k] counts from the end. *)
Definition slice_to {A : Type} (l : list A) (k : Z) : list A :=
  if (0 <=? k)%Z then take (Z.to_nat k) l
  else take (Z.to_nat (Z.of_nat (length l) + k)) l.

End PyStr.

(** ** Query intent (RAG improvement notes, section 6) *)

Module Intent.
Import PyStr.

Definition classify_query_intent (query : string) : string :=
  let query_lower := lower query in
  if any_in ["what is"; "define"; "definition"; "meaning"] query_lower then
    "definition"
  else if any_in ["does it cover"; "coverage"; "included"] query_lower then
    "coverage_check"
  else if any_in ["how much"; "limit"; "sum"] query_lower then
    "amount_query"
  else
    "general".

(** The values the specification enumerates for [query_type]. *)
Definition spec_query_types : list string :=
  ["definition"; "exclusion"; "coverage"; "general"].

(** The values the classifier has in its [return] statements. *)
Definition intent_labels : list string :=
  ["definition"; "coverage_check"; "amount_query"; "general"].

End Intent.

(** ** Retrieve more and re-rank (RAG improvement notes, sections 1 and 2) *)

Module Reranking.
Import PyStr.

Local Open Scope Q_scope.

Definition INSURANCE_SYNONYMS : list (string * list string) :=
  [("baby", ["newborn"; "new born baby"; "infant"; "neonate"]);
   ("treatment", ["medical procedure"; "therapy"; "medical care"]);
   ("scientifically unproven",
    ["experimental"; "investigational"; "not medically necessary"]);
   ("accident", ["accidental injury"; "bodily injury"; "external injury"])].

(** [for term, synonyms in INSURANCE_SYNONYMS.items(): ...] in the order
    the dictionary literal lists its keys. *)
Definition expand_query (query : string) : string :=
  fold_left
    (fun expanded '(term, synonyms) =>
       if contains (lower term) (lower query)
       then expanded ++ " " ++ join " OR " synonyms
       else expanded)
    INSURANCE_SYNONYMS query.

(** [range(n)] *)
Definition range (n : nat) : list nat := seq 0 n.

(** [sorted(l, key=key, reverse=True)]: Python's sort is stable and stays
    so under [reverse=True], so elements with equal keys keep the order
    they have in [l]. Written as an insertion from the right: [x] stands
    before every element of the sorted tail whose key is not greater. *)
Fixpoint insert_desc (key : nat -> Q) (x : nat) (l : list nat) : list nat :=
  match l with
  | [] => [x]
  | y :: l' =>
      if Qlt_le_dec (key x) (key y) then y :: insert_desc key x l'
      else x :: y :: l'
  end.

Definition sorted_reverse (key : nat -> Q) (l : list nat) : list nat :=
  fold_right (insert_desc key) [] l.

(** [scores[i]] for an index of [range(len(scores))]. *)
Definition score_at (scores : list Q) (i : nat) : Q := nth i scores 0.

(** [top_indices = sorted(range(len(scores)), key=lambda i: scores[i],
    reverse=True)[:final_top_k]] *)
Definition top_indices (scores : list Q) (final_top_k : Z) : list nat :=
  slice_to (sorted_reverse (score_at scores) (range (length scores)))
           final_top_k.

Section SearchWithReranking.
(** [cls.search(text, n_results)['documents'][0]]: the chunk texts the
    vector store returns, nearest first. *)
Variable search : string -> Z -> list string.
(** [calculate_relevance_score(query_text, chunk)] *)
Variable calculate_relevance_score : string -> string -> Q.

(** The candidate pool of one call: the retrieved chunks and their
    scores, in retrieval order. The function refers to a fragment of the
    pool by its position. *)
Definition retrieved_chunks (query_text : string) (n_results : Z)
  : list string :=
  search (expand_query query_text) n_results.

Definition relevance_scores (query_text : string) (chunks : list string)
  : list Q :=
  map (calculate_relevance_score query_text) chunks.

(** The function up to its last line shown: the indices of the re-ranked
    chunks. *)
Definition search_with_reranking
    (query_text : string) (n_results final_top_k : Z) : list nat :=
  let chunks := retrieved_chunks query_text n_results in
  let scores := relevance_scores query_text chunks in
  top_indices scores final_top_k.

(** The re-ranked results: each index with its chunk and score. *)
Definition reranked_results
    (query_text : string) (n_results final_top_k : Z)
  : list (nat * string * Q) :=
  let chunks := retrieved_chunks query_text n_results in
  let scores := relevance_scores query_text chunks in
  map (fun i => (i, nth i chunks "", score_at scores i))
      (top_indices scores final_top_k).
End SearchWithReranking.

(** Score order of the ranking: a higher score first, and among equal
    scores the lower index first. *)
Definition ranks_before (key : nat -> Q) (i j : nat) : Prop :=
  key j < key i \/ (key i == key j /\ (i < j)%nat).

End Reranking.

(** ** The retrieval pipeline of the specification

    The Python modules behind sections 4.2 to 4.5 of the specification
    (query expander, multi-query retriever, hybrid scorer, diversity
    reranker) are not among the source files. The definitions of this
    module follow the specification's sentences; the collaborators and the
    nine signal computations are section variables. The composite score is
    the formula of [AdaptiveScoring], which is in the sources. *)

Module Pipeline.

Local Open Scope Q_scope.

(** Modelled from the spec: Fragment of section 3, "identifier,
    source-document identifier, source filename, raw text, character length
    ..., optional structural tag"; the character length is that of the raw
    text and the embedding vector stays with the embedding collaborator. The
    back end's own class is missing. *)
Record Fragment : Type := mkFragment {
  identifier : string;
  source_document : string;
  source_filename : string;
  raw_text : string;
  structural_tag : option string
}.

(** Modelled from the spec: Query of section 3, "the user's raw question
    string plus an optional target-document filter"; the back end's own
    class is missing. *)
Record Query : Type := mkQuery {
  question : string;
  target_document : option string
}.

(** Modelled from the spec: QueryExpansion of section 3, with its
    enumerated query_type, rephrasings, concept terms, hypothetical answers
    and context hints; the back end's own class is missing. *)
Record QueryExpansion : Type := mkQueryExpansion {
  query_type : AdaptiveScoring.QueryType;
  rephrasings : list string;
  concept_terms : list string;
  hypothetical_answers : list string;
  context_hints : list string
}.

(** Modelled from the spec: Candidate of section 3, a fragment with the
    best raw distance and the hit count of the merge; the back end's own
    class is missing. *)
Record Candidate : Type := mkCandidate {
  fragment : Fragment;
  distance : Q;
  hit_count : nat
}.

(** Modelled from the spec: ScoredCandidate of section 3, "a Candidate
    annotated with nine named sub-scores ... and one composite score"; the
    back end's own class is missing. *)
Record ScoredCandidate : Type := mkScoredCandidate {
  candidate : Candidate;
  sub_scores : AdaptiveScoring.SubScores;
  composite : Q
}.

(** Modelled from the spec: RankedResult of section 3, "the final ordered
    sequence of Fragments (with composite scores)"; the back end's own type
    is missing. *)
Definition RankedResult : Type := list ScoredCandidate.

(** Modelled from the spec: the Fragment identifier of a scored candidate
    (section 3); the back end's accessor is missing. *)
Definition fragment_id (c : ScoredCandidate) : string :=
  identifier (fragment (candidate c)).

(** Modelled from the spec: the source document of a scored candidate
    (section 3); the back end's accessor is missing. *)
Definition source_of (c : ScoredCandidate) : string :=
  source_document (fragment (candidate c)).

(** Modelled from the spec: the conditions the pipeline logs beside its
    result; section 8 names one, the "diversity-shortfall condition". The
    back end's logging is missing. *)
Inductive LogEvent : Type := DiversityShortfall.

#[global] Instance LogEvent_eq_dec : EqDecision LogEvent.
Proof. solve_decision. Defined.

(** *** 4.5 Diversity Reranker *)

(** Modelled from the spec: the order on Fragment identifiers that breaks
    ties (section 4.5), taken as the order of the strings; the reranker's
    comparison is missing. *)
Definition id_le (a b : string) : bool :=
  match String_as_OT.cmp a b with
  | Gt => false
  | _ => true
  end.

(** Modelled from the spec: the sort order of section 4.5, "descending by
    composite score ... ties broken by Fragment identifier"; [ranks_first c
    d] says that [c] may stand before [d]. The reranker's comparison is
    missing. *)
Definition ranks_first (c d : ScoredCandidate) : bool :=
  match composite c ?= composite d with
  | Gt => true
  | Lt => false
  | Eq => id_le (fragment_id c) (fragment_id d)
  end.

(** Modelled from the spec: one step of the stable sort of section 4.5,
    [x] being put before the first candidate it may stand before; the
    reranker's sort is missing. *)
Fixpoint insert_ranked (x : ScoredCandidate) (l : list ScoredCandidate)
  : list ScoredCandidate :=
  match l with
  | [] => [x]
  | y :: l' => if ranks_first x y then x :: l else y :: insert_ranked x l'
  end.

(** Modelled from the spec: "Sort candidates descending by composite score
    (stable sort ...)"; the reranker's sort is missing. *)
Definition sort_by_score (l : list ScoredCandidate) : list ScoredCandidate :=
  fold_right insert_ranked [] l.

(** Modelled from the spec: "Greedily select candidates in score order,
    admitting a candidate only if its source document has not yet reached
    max_per_source admitted fragments", until top_k are admitted. Every
    candidate is tagged with whether the pass admitted it; [admitted] counts
    the fragments admitted so far per source document. The reranker's loop
    is missing. *)
Fixpoint diversity_pass (max_per_source slots : nat)
    (admitted : gmap string nat) (cs : list ScoredCandidate)
  : list (ScoredCandidate * bool) :=
  match cs with
  | [] => []
  | c :: cs' =>
      let n := default 0%nat (admitted !! source_of c) in
      match slots with
      | S slots' =>
          if decide (n < max_per_source)%nat
          then (c, true)
               :: diversity_pass max_per_source slots'
                    (<[source_of c := S n]> admitted) cs'
          else (c, false) :: diversity_pass max_per_source slots admitted cs'
      | O => (c, false) :: diversity_pass max_per_source slots admitted cs'
      end
  end.

(** Modelled from the spec: "backfill remaining slots from the
    highest-scoring not-yet-selected candidates regardless of the cap,
    preserving overall score order": the first [free] candidates the pass
    left out are admitted where they stand. The reranker's fallback is
    missing. *)
Fixpoint backfill (free : nat) (tagged : list (ScoredCandidate * bool))
  : list (ScoredCandidate * bool) :=
  match tagged with
  | [] => []
  | (c, true) :: rest => (c, true) :: backfill free rest
  | (c, false) :: rest =>
      match free with
      | S free' => (c, true) :: backfill free' rest
      | O => (c, false) :: backfill O rest
      end
  end.

(** Modelled from the spec: the candidates tagged as admitted, in score
    order (section 4.5, "preserving overall score order"); the reranker is
    missing. *)
Definition selected (tagged : list (ScoredCandidate * bool))
  : list ScoredCandidate :=
  (filter (fun p => p.2 = true) tagged).*1.

(** Modelled from the spec: what "the greedy pass yields" (section 4.5),
    before any backfill; the reranker is missing. *)
Definition greedy_selection (scored : list ScoredCandidate)
    (top_k max_per_source : nat) : list ScoredCandidate :=
  selected (diversity_pass max_per_source top_k ∅ (sort_by_score scored)).

(** Modelled from the spec: [rerank(scored_candidates, top_k,
    max_per_source) -> RankedResult] of section 4.5, together with the
    diversity-shortfall report that section 8 asks for when backfill admits
    a candidate past the cap. The reranker is missing. *)
Definition rerank (scored : list ScoredCandidate) (top_k max_per_source : nat)
  : RankedResult * list LogEvent :=
  let tagged :=
    diversity_pass max_per_source top_k ∅ (sort_by_score scored) in
  let n := length (selected tagged) in
  if decide (n < top_k)%nat then
    let filled := backfill (top_k - n) tagged in
    (selected filled,
     if decide (n < length (selected filled))%nat
     then [DiversityShortfall] else [])
  else (selected tagged, []).

(** Modelled from the spec: how many fragments a "source document
    contributes" to a ranked result (section 8); the reranker is missing. *)
Definition source_count (d : string) (ranked : list ScoredCandidate) : nat :=
  length (filter (fun c => source_of c = d) ranked).

Section Collaborators.

(** Modelled from the spec: the generation collaborator of section 6,
    [generate(structured_prompt) -> structured_text]; [None] when the call
    fails or times out. *)
Variable generate : string -> option string.
(** Modelled from the spec: the "structured prompt" of section 4.2, built
    for a question. *)
Variable structured_prompt : string -> string.
(** Modelled from the spec: "Parses a structured response" (section 4.2);
    [None] when the response is malformed. *)
Variable parse_expansion : string -> option QueryExpansion.
(** Modelled from the spec: the embedding-similarity store of section 6,
    [search(vector_query_text, limit, optional_document_filter) -> ordered
    list of (fragment_id, distance)]; [None] when the call errs. *)
Variable search : string -> nat -> option string -> option (list (string * Q)).
(** Modelled from the spec: the Fragments "owned by the ingestion/storage
    subsystem" (section 3). *)
Variable corpus : list Fragment.
(** Modelled from the spec: the nine signal computations of section 4.4,
    whose formulas the specification leaves open. *)
Variable signals : Query -> QueryExpansion -> Candidate
                   -> AdaptiveScoring.SubScores.

(** *** 4.2 Query Expander *)

(** Modelled from the spec: the degraded QueryExpansion of section 3,
    "query_type = general, empty concept/hint sets, and zero hypothetical
    answers", with no rephrasings either (section 8: original-query-only
    retrieval). *)
Definition degraded_expansion : QueryExpansion :=
  mkQueryExpansion AdaptiveScoring.General [] [] [] [].

(** Modelled from the spec: [expand] of section 4.2, one call of the
    generation collaborator, "any parse failure, timeout, or malformed
    field yields the degraded QueryExpansion ... rather than propagating an
    error". The expander is missing. *)
Definition expand (query : Query) : QueryExpansion :=
  match generate (structured_prompt (question query)) with
  | None => degraded_expansion
  | Some response =>
      match parse_expansion response with
      | None => degraded_expansion
      | Some expansion => expansion
      end
  end.

(** Modelled from the spec: "the generation collaborator fails or returns
    malformed output" (section 3), for the one call [expand] makes. *)
Definition expansion_failed (query : Query) : Prop :=
  generate (structured_prompt (question query)) = None
  \/ exists response : string,
       generate (structured_prompt (question query)) = Some response
       /\ parse_expansion response = None.

(** *** 4.3 Multi-Query Retriever *)

(** Modelled from the spec: the texts searched for (section 4.3), "the
    original query, each semantic variant, and each hypothetical answer";
    the retriever is missing. *)
Definition sub_queries (query : Query) (expansion : QueryExpansion)
  : list string :=
  question query :: rephrasings expansion ++ hypothetical_answers expansion.

(** Modelled from the spec: the Fragment a store identifier stands for
    (sections 3 and 6); the storage lookup is missing. *)
Definition lookup_fragment (id : string) : option Fragment :=
  find (fun f => String.eqb (identifier f) id) corpus.

(** Modelled from the spec: the merge of section 4.3, "Deduplicate by
    Fragment identifier, keeping the minimum raw distance and incrementing
    hit count on merge", in "an explicit mapping keyed by Fragment
    identifier" (section 9). A hit whose identifier names no fragment of the
    corpus is dropped. The retriever is missing. *)
Definition merge_hit (pool : gmap string Candidate) (hit : string * Q)
  : gmap string Candidate :=
  match pool !! hit.1 with
  | Some c =>
      <[hit.1 := mkCandidate (fragment c) (Qmin (distance c) hit.2)
                             (S (hit_count c))]> pool
  | None =>
      match lookup_fragment hit.1 with
      | Some f => <[hit.1 := mkCandidate f hit.2 1]> pool
      | None => pool
      end
  end.

(** Modelled from the spec: one sub-query of section 4.3, at most [limit]
    hits; "if the embedding collaborator errs on a sub-query, skip that
    sub-query". The retriever is missing. *)
Definition sub_query_hits (query : Query) (limit : nat) (text : string)
  : list (string * Q) :=
  match search text limit (target_document query) with
  | None => []
  | Some hits => take limit hits
  end.

(** Modelled from the spec: the pool as "an explicit mapping keyed by
    Fragment identifier" (section 9): every candidate is filed under its
    fragment's identifier. *)
Definition keyed_by_identifier (pool : gmap string Candidate) : Prop :=
  forall (id : string) (c : Candidate),
    pool !! id = Some c -> identifier (fragment c) = id.

(** Modelled from the spec: [retrieve(query, expansion, candidate_limit)]
    of section 4.3, with a per-sub-query limit "such that the union does
    not exceed candidate_limit". The retriever is missing. *)
Definition retrieve (query : Query) (expansion : QueryExpansion)
    (candidate_limit : nat) : gmap string Candidate :=
  let texts := sub_queries query expansion in
  let limit := (candidate_limit / length texts)%nat in
  fold_left merge_hit (concat (map (sub_query_hits query limit) texts)) ∅.

(** *** 4.4 Hybrid Scorer *)

(** Modelled from the spec: [score] of section 4.4; the composite score is
    "a pure function of the sub-scores and the resolved weight vector for
    the query's query_type", here the formula of the sources. *)
Definition score_candidate (query : Query) (expansion : QueryExpansion)
    (c : Candidate) : ScoredCandidate :=
  let s := signals query expansion c in
  mkScoredCandidate c s
    (AdaptiveScoring.score (AdaptiveScoring.name (query_type expansion)) s).

(** *** The pipeline *)

(** Modelled from the spec: the control flow of section 2, "Query Expander
    -> Multi-Query Retriever -> Hybrid Scorer -> Diversity Reranker", on an
    expansion already made. *)
Definition rank_with (query : Query) (expansion : QueryExpansion)
    (candidate_limit top_k max_per_source : nat)
  : RankedResult * list LogEvent :=
  let pool := (map_to_list (retrieve query expansion candidate_limit)).*2 in
  rerank (map (score_candidate query expansion) pool) top_k max_per_source.

(** Modelled from the spec: the whole pipeline, with the boundary of
    section 8, "empty query string yields an empty RankedResult without
    error". *)
Definition pipeline (query : Query)
    (candidate_limit top_k max_per_source : nat)
  : RankedResult * list LogEvent :=
  if String.eqb (question query) "" then ([], [])
  else rank_with query (expand query) candidate_limit top_k max_per_source.

End Collaborators.

End Pipeline.

(** ** JavaScript string helpers

    A string is read as its sequence of characters in the range 0 to 255;
    characters beyond that range are outside this model. *)

Module JsStr.

(** [s.slice(k)] for [k >= 0]: [s] without its first [k] characters. *)
Fixpoint slice_from (k : nat) (s : string) : string :=
  match k, s with
  | O, _ => s
  | S k', String _ s' => slice_from k' s'
  | S _, EmptyString => EmptyString
  end.

(** [s.endsWith(suffix)] *)
Definition endsWith (s suffix : string) : bool :=
  let n := String.length s in
  let m := String.length suffix in
  (m <=? n)%nat && String.eqb (slice_from (n - m) s) suffix.

(** [s.startsWith(p)] *)
Definition startsWith (s p : string) : bool := String.prefix p s.

(** The white space and line terminator characters that [trim] strips:
    tab, line feed, vertical tab, form feed, carriage return, space and
    no-break space. *)
Definition is_whitespace (c : ascii) : bool :=
  let n := nat_of_ascii c in
  (n =? 9)%nat || (n =? 10)%nat || (n =? 11)%nat || (n =? 12)%nat
  || (n =? 13)%nat || (n =? 32)%nat || (n =? 160)%nat.

Fixpoint trim_start (s : string) : string :=
  match s with
  | EmptyString => EmptyString
  | String c s' => if is_whitespace c then trim_start s' else s
  end.

(** [s.trim()] *)
Definition trim (s : string) : string :=
  PyStr.rev (trim_start (PyStr.rev (trim_start s))).

(** A string is falsy exactly when it is empty. *)
Definition truthy (s : string) : bool := negb (String.eqb s "").

Fixpoint all_whitespace (s : string) : bool :=
  match s with
  | EmptyString => true
  | String c s' => is_whitespace c && all_whitespace s'
  end.

(** [s.split('\n')] *)
Fixpoint split_lines_aux (cur : string) (s : string) : list string :=
  match s with
  | EmptyString => [PyStr.rev cur]
  | String c s' =>
      if (nat_of_ascii c =? 10)%nat
      then PyStr.rev cur :: split_lines_aux "" s'
      else split_lines_aux (String c cur) s'
  end.

Definition split_lines (s : string) : list string := split_lines_aux "" s.

End JsStr.

(** ** DocumentManager.jsx *)

Module DocumentManager.
Import JsStr.

(** A [File] of the file input, as far as the component reads it. *)
Record File : Type := mkFile {
  name : string;
  type : string;
  size : Z
}.

Record Document : Type := mkDocument {
  doc_id : string;
  filename : string;
  upload_date : string;
  chunk_count : Z
}.

(** The [useState] cells of the component. *)
Record State : Type := mkState {
  documents : list Document;
  loading : bool;
  uploading : bool;
  error : string;
  success : string;
  selectedFile : option File
}.

Definition setError (msg : string) (st : State) : State :=
  mkState (documents st) (loading st) (uploading st) msg (success st)
          (selectedFile st).

Definition setSelectedFile (f : option File) (st : State) : State :=
  mkState (documents st) (loading st) (uploading st) (error st) (success st) f.

Definition validTypes : list string :=
  ["application/pdf";
   "text/plain";
   "application/vnd.openxmlformats-officedocument.wordprocessingml.document"].

(** [validTypes.includes(t)] *)
Definition includes (l : list string) (t : string) : bool :=
  existsb (String.eqb t) l.

Definition invalid_type_message : string :=
  "Invalid file type. Please upload PDF, TXT, or DOCX files.".

Definition too_large_message : string :=
  "File too large. Maximum size is 50MB.".

(** [handleFileSelect(e)], with [e.target.files[0]] as [chosen]: [None]
    when the list of files is empty. *)
Definition handleFileSelect (chosen : option File) (st : State) : State :=
  match chosen with
  | None => st
  | Some file =>
      if negb (includes validTypes (type file))
         && negb (endsWith (name file) ".txt")
      then setError invalid_type_message st
      else if (52428800 <? size file)%Z
      then setError too_large_message st
      else setError "" (setSelectedFile (Some file) st)
  end.

(** The two checks of the claim: an accepted type (or a [.txt] name) and a
    size of at most 50MB. *)
Definition type_ok (file : File) : Prop :=
  type file ∈ validTypes \/ exists stem : string, name file = stem ++ ".txt".

Definition size_ok (file : File) : Prop := (size file <= 52428800)%Z.

End DocumentManager.

(** ** Chat.jsx *)

Module Chat.
Import JsStr.

Record Message : Type := mkMessage {
  role : string;
  content : string
}.

(** The [useState] cells of the component ([file] holds no more than
    whether a file is set). *)
Record State : Type := mkState {
  query : string;
  messages : list Message;
  loading : bool;
  file : option string;
  uploading : bool
}.

(** What a call does to the outside: the default action of the event is
    prevented, a request is sent. *)
Inductive Effect : Type :=
| PreventDefault
| Fetch (url : string) (token : string) (body_query : string).

(** A parsed [data: ] line of the response stream. *)
Record Data : Type := mkData {
  data_type : string;
  data_content : string
}.

Definition setMessages (f : list Message -> list Message) (st : State)
  : State :=
  mkState (query st) (f (messages st)) (loading st) (file st) (uploading st).

Definition setQuery (q : string) (st : State) : State :=
  mkState q (messages st) (loading st) (file st) (uploading st).

Definition setLoading (b : bool) (st : State) : State :=
  mkState (query st) (messages st) b (file st) (uploading st).

(** The updater passed to [setMessages] for a token: the last message, when
    it is the assistant's, gets the text so far; otherwise a new assistant
    message is pushed. *)
Definition show_response (aiResponse : string) (prev : list Message)
  : list Message :=
  match last prev with
  | Some m =>
      if String.eqb (role m) "assistant"
      then (removelast prev ++ [mkMessage "assistant" aiResponse])%list
      else (prev ++ [mkMessage "assistant" aiResponse])%list
  | None => (prev ++ [mkMessage "assistant" aiResponse])%list
  end.

Section Network.

(** [fetch(...)] and the reads of the body, decoded: [None] when the
    request itself fails; else the chunks of text read, in order, and
    whether the stream then ended ([true]) or a read failed ([false]). *)
Variable fetch : string -> string -> string -> option (list string * bool).
(** [JSON.parse]: [None] when it throws or the value has no [type]. *)
Variable JSON_parse : string -> option Data.

(** One line of a chunk; [None] when [JSON.parse] throws. *)
Definition handle_line (acc : string * State) (line : string)
  : option (string * State) :=
  if startsWith line "data: " then
    match JSON_parse (slice_from 6 line) with
    | None => None
    | Some data =>
        if String.eqb (data_type data) "token" then
          let aiResponse := acc.1 ++ data_content data in
          Some (aiResponse, setMessages (show_response aiResponse) acc.2)
        else Some acc
    end
  else Some acc.

(** The lines in order, up to the first that throws: the state reached and
    whether all went through. *)
Fixpoint handle_lines (acc : string * State) (lines : list string)
  : (string * State) * bool :=
  match lines with
  | [] => (acc, true)
  | line :: rest =>
      match handle_line acc line with
      | None => (acc, false)
      | Some acc' => handle_lines acc' rest
      end
  end.

Fixpoint handle_chunks (acc : string * State) (chunks : list string)
  : (string * State) * bool :=
  match chunks with
  | [] => (acc, true)
  | chunk :: rest =>
      match handle_lines acc (split_lines chunk) with
      | (acc', true) => handle_chunks acc' rest
      | (acc', false) => (acc', false)
      end
  end.

Definition error_message : Message :=
  mkMessage "assistant" "Error: Could not process query".

(** [handleQuery(e)]: the state after the call has run to its end, and the
    effects in order. *)
Definition handleQuery (token : string) (st : State) : State * list Effect :=
  if negb (truthy (trim (query st))) then (st, [PreventDefault])
  else
    let userMessage := mkMessage "user" (query st) in
    let st1 :=
      setLoading true
        (setQuery "" (setMessages (fun prev => (prev ++ [userMessage])%list) st)) in
    let request :=
      Fetch "http://localhost:8000/api/v1/chat/query" token (query st) in
    let st2 :=
      match fetch "http://localhost:8000/api/v1/chat/query" token (query st)
      with
      | None => setMessages (fun prev => (prev ++ [error_message])%list) st1
      | Some (chunks, ended) =>
          match handle_chunks ("", st1) chunks with
          | (acc, true) =>
              if ended then acc.2
              else setMessages (fun prev => (prev ++ [error_message])%list)
                     acc.2
          | (acc, false) =>
              setMessages (fun prev => (prev ++ [error_message])%list) acc.2
          end
      end in
    (setLoading false st2, [PreventDefault; request]).

Definition is_fetch (e : Effect) : bool :=
  match e with
  | Fetch _ _ _ => true
  | PreventDefault => false
  end.

End Network.

End Chat.

(** ** The lexical scorer of the specification (section 4.1)

    The Python module is not among the source files. The five components
    follow the formulas of section 4.1; a division by zero is an exception
    of the formula, and a component gives the neutral value 0 where its
    formula raises (section 7). *)

Module LexicalScorer.
Import PyStr.

Local Open Scope Q_scope.

(** Modelled from the spec: a count read as a score value; the scorer is
    missing. *)
Definition of_nat (n : nat) : Q := inject_Z (Z.of_nat n).

(** Modelled from the spec: the division of the formulas of section 4.1,
    with the "division-by-zero" the section warns of as [None]; the scorer
    is missing. *)
Definition div (a b : Q) : option Q :=
  if Qeq_bool b 0 then None else Some (a / b).

(** Modelled from the spec: "all signal functions must return a default
    neutral value (0.0) rather than propagate an exception"; the scorer's
    error handling is missing. *)
Definition neutral (r : option Q) : Q := default 0 r.

(** Modelled from the spec: the characters that make up a token (section
    4.1 speaks of "tokens" only): letters, digits and the underscore. The
    scorer's tokenizer is missing. *)
Definition is_word_char (c : ascii) : bool :=
  let n := nat_of_ascii c in
  ((48 <=? n)%nat && (n <=? 57)%nat)
  || ((65 <=? n)%nat && (n <=? 90)%nat)
  || ((97 <=? n)%nat && (n <=? 122)%nat)
  || (n =? 95)%nat.

(** Modelled from the spec: the token collected so far (in reverse), as a
    list of at most one token; the scorer's tokenizer is missing. *)
Definition flush (cur : string) : list string :=
  match cur with
  | EmptyString => []
  | String _ _ => [rev cur]
  end.

(** Modelled from the spec: the scan that cuts a text into tokens; the
    scorer's tokenizer is missing. *)
Fixpoint words_aux (cur : string) (s : string) : list string :=
  match s with
  | EmptyString => flush cur
  | String c s' =>
      if is_word_char c then words_aux (String c cur) s'
      else (flush cur ++ words_aux "" s')%list
  end.

(** Modelled from the spec: the tokens of a text, its maximal runs of
    token characters; the scorer's tokenizer is missing. *)
Definition words (s : string) : list string := words_aux "" s.

(** Modelled from the spec: the length of a longest common subsequence,
    for the "longest-common-subsequence ratio" of component 5; the scorer
    is missing. *)
Fixpoint lcs (a b : list ascii) : nat :=
  match a with
  | [] => 0%nat
  | x :: a' =>
      (fix inner (b : list ascii) : nat :=
         match b with
         | [] => 0%nat
         | y :: b' =>
             if Ascii.eqb x y then S (lcs a' b')
             else Nat.max (lcs a' b) (inner b')
         end) b
  end.

(** Modelled from the spec: the "query bigrams" of component 3, the pairs
    of neighbouring words joined by a space; the scorer is missing. *)
Fixpoint bigrams (ws : list string) : list string :=
  match ws with
  | [] => []
  | a :: rest =>
      match rest with
      | [] => []
      | b :: _ => (a ++ " " ++ b) :: bigrams rest
      end
  end.

(** Modelled from the spec: "summed" of component 2; an exception in one
    term is the sum's. The scorer is missing. *)
Fixpoint sum_results (l : list (option Q)) : option Q :=
  match l with
  | [] => Some 0
  | r :: l' => x ← r; y ← sum_results l'; Some (x + y)
  end.

Section Scorer.

(** Modelled from the spec: the stop words of "stop-word-filtered
    tokens"; the list is missing. *)
Variable stop_words : list string.
(** Modelled from the spec: [corpus_size] of the corpus statistics
    provider (section 6). *)
Variable corpus_size : nat.
(** Modelled from the spec: [term_document_frequency(term)] of the corpus
    statistics provider (section 6). *)
Variable term_doc_frequency : string -> nat.
(** Modelled from the spec: the logarithm of component 2, [log1p x]
    standing for [log(1 + x)]. *)
Variable log1p : Q -> Q.
(** Modelled from the spec: the "free parameter" [k] of [tf / (tf + k)]. *)
Variable k : Q.
(** Modelled from the spec: how much of the fragment component 5 reads,
    "may operate on truncated fragment text". *)
Variable fuzzy_limit : nat.

(** Modelled from the spec: the "lower-cased, stop-word-filtered tokens"
    of component 1; the scorer is missing. *)
Definition tokens (text : string) : list string :=
  filter (fun w => w ∉ stop_words) (words (lower text)).

(** Modelled from the spec: the "token-set" of component 1; the scorer is
    missing. *)
Definition token_set (text : string) : gset string :=
  list_to_set (tokens text).

(** Modelled from the spec: component 1, "Token-set overlap (Jaccard over
    lower-cased, stop-word-filtered tokens)"; the scorer is missing. *)
Definition raw_token_overlap (query text : string) : option Q :=
  div (of_nat (size (token_set query ∩ token_set text)))
      (of_nat (size (token_set query ∪ token_set text))).

(** Modelled from the spec: component 1 as callers see it, with the
    neutral value where the formula raises; the scorer is missing. *)
Definition token_overlap (query text : string) : Q :=
  neutral (raw_token_overlap query text).

(** Modelled from the spec: the "in-fragment frequency" of a term; the
    scorer is missing. *)
Definition term_frequency (term : string) (text_tokens : list string) : nat :=
  length (filter (fun w => w = term) text_tokens).

(** Modelled from the spec: "each query term contributes log(1 +
    corpus_size/term_doc_frequency) scaled by its in-fragment frequency
    saturated by a free parameter ... terms absent from the fragment
    contribute zero"; the scorer is missing. *)
Definition term_contribution (term : string) (text_tokens : list string)
  : option Q :=
  let tf := term_frequency term text_tokens in
  if (tf =? 0)%nat then Some 0
  else
    ratio ← div (of_nat corpus_size) (of_nat (term_doc_frequency term));
    saturated ← div (of_nat tf) (of_nat tf + k);
    Some (log1p ratio * saturated).

(** Modelled from the spec: component 2, the rarity-weighted term match,
    "summed and normalized by query length"; the scorer is missing. *)
Definition raw_rarity_match (query text : string) : option Q :=
  let query_tokens := tokens query in
  let text_tokens := tokens text in
  total ← sum_results
            (map (fun t => term_contribution t text_tokens) query_tokens);
  div total (of_nat (length query_tokens)).

(** Modelled from the spec: component 2 as callers see it, with the
    neutral value where the formula raises; the scorer is missing. *)
Definition rarity_match (query text : string) : Q :=
  neutral (raw_rarity_match query text).

(** Modelled from the spec: component 3, "fraction of query bigrams found
    verbatim (case-insensitive) in the fragment"; the scorer is missing. *)
Definition raw_ngram_match (query text : string) : option Q :=
  let query_bigrams := bigrams (words (lower query)) in
  let found :=
    filter (fun b => contains b (lower text) = true) query_bigrams in
  div (of_nat (length found)) (of_nat (length query_bigrams)).

(** Modelled from the spec: component 3 as callers see it, with the
    neutral value where the formula raises; the scorer is missing. *)
Definition ngram_match (query text : string) : Q :=
  neutral (raw_ngram_match query text).

(** Modelled from the spec: component 4, "fraction of distinct query
    tokens that appear anywhere in the fragment"; the scorer is missing. *)
Definition raw_query_coverage (query text : string) : option Q :=
  let distinct := elements (token_set query) in
  let found := filter (fun t => contains t (lower text) = true) distinct in
  div (of_nat (length found)) (of_nat (length distinct)).

(** Modelled from the spec: component 4 as callers see it, with the
    neutral value where the formula raises; the scorer is missing. *)
Definition query_coverage (query text : string) : Q :=
  neutral (raw_query_coverage query text).

(** Modelled from the spec: component 5, the "longest-common-subsequence
    ratio between query and fragment", on the fragment text truncated to
    [fuzzy_limit] characters; the scorer is missing. *)
Definition raw_fuzzy_similarity (query text : string) : option Q :=
  let a := list_ascii_of_string (lower query) in
  let b := take fuzzy_limit (list_ascii_of_string (lower text)) in
  div (of_nat (2 * lcs a b)) (of_nat (length a + length b)).

(** Modelled from the spec: component 5 as callers see it, with the
    neutral value where the formula raises; the scorer is missing. *)
Definition fuzzy_similarity (query text : string) : Q :=
  neutral (raw_fuzzy_similarity query text).

(** Modelled from the spec: "The five components are exposed
    individually"; the scorer's result type is missing. *)
Record Components : Type := mkComponents {
  overlap : Q;
  rarity : Q;
  ngram : Q;
  coverage : Q;
  fuzzy : Q
}.

(** Modelled from the spec: the contract of section 4.1, "given a query
    string and a fragment's text, return five independent component
    scores"; the scorer is missing. *)
Definition lexical_components (query text : string) : Components :=
  mkComponents (token_overlap query text) (rarity_match query text)
    (ngram_match query text) (query_coverage query text)
    (fuzzy_similarity query text).

(** Modelled from the spec: the single "lexical" signal, the components
    combined with "a fixed internal weighting (equal ...)"; the scorer is
    missing. *)
Definition lexical_signal (query text : string) : Q :=
  let c := lexical_components query text in
  (overlap c + rarity c + ngram c + coverage c + fuzzy c) / 5.

End Scorer.

End LexicalScorer.

(** ** Sample collaborators and inputs *)

Module Samples.
Import Pipeline.
Local Open Scope Q_scope.

(** A generation collaborator that always fails. *)
Definition failing_generate (prompt : string) : option string := None.

Definition plain_prompt (question : string) : string := question.

Definition no_parse (response : string) : option QueryExpansion := None.

Definition sample_corpus : list Fragment :=
  [mkFragment "f1" "policy.pdf" "policy.pdf" "New Born Baby means ..." None].

(** Two hits whatever the text; the second is unknown to the corpus. *)
Definition sample_search (text : string) (limit : nat) (doc : option string)
  : option (list (string * Q)) :=
  Some [("f1", 0.25); ("f9", 0.5)].

Definition sample_signals (q : Query) (e : QueryExpansion) (c : Candidate)
  : AdaptiveScoring.SubScores :=
  AdaptiveScoring.mkSubScores (1 / (1 + distance c)) 0 0 0 0 0 0 0 0.

Definition sample_query : Query := mkQuery "what is a baby" None.

(** A vector store that returns three chunks, and a relevance score that
    is the length of the chunk. *)
Definition three_chunks (text : string) (n_results : Z) : list string :=
  ["maternity exclusions"; "New Born Baby means a baby up to 90 days";
   "renewal"].

Definition length_score (query_text chunk : string) : Q :=
  inject_Z (Z.of_nat (String.length chunk)).

(** A response of two chunks carrying three tokens. *)
Definition sample_fetch (url token body : string)
  : option (list string * bool) :=
  Some (["data: 1" ++ String (ascii_of_nat 10) "data: 2"; "data: 3"], true).

Definition sample_parse (text : string) : option Chat.Data :=
  Some (Chat.mkData "token" text).

Definition blank_state : Chat.State :=
  Chat.mkState "   " [Chat.mkMessage "user" "hi"] false None false.

Definition asking_state : Chat.State :=
  Chat.mkState "What is covered?" [] false None false.

Definition pdf_file : DocumentManager.File :=
  DocumentManager.mkFile "policy.pdf" "application/pdf" 1048576.

Definition notes_file : DocumentManager.File :=
  DocumentManager.mkFile "notes.txt" "" 10.

Definition image_file : DocumentManager.File :=
  DocumentManager.mkFile "scan.png" "image/png" 2048.

Definition huge_file : DocumentManager.File :=
  DocumentManager.mkFile "big.pdf" "application/pdf" 52428801.

(** A small scorer configuration: three stop words, a corpus of ten
    fragments in which every term occurs in two, the identity for the
    logarithm, k = 1. *)
Definition sample_components (query text : string)
  : LexicalScorer.Components :=
  LexicalScorer.lexical_components ["the"; "a"; "is"] 10 (fun _ => 2%nat)
    (fun x => x) 1 200 query text.

Definition manager_state : DocumentManager.State :=
  DocumentManager.mkState [] false false "" "" None.

End Samples.

(** ** More of the RAG improvement notes: intent-based search and semantic
    chunking *)

Module RagNotes.
Import PyStr.

Local Open Scope Q_scope.

Section IntentBasedSearch.

(** What a search returns. *)
Variable Result : Type.
(** [search(query, n_results=..., boost_sections=[...])] *)
Variable search : string -> Z -> list string -> Result.

(** [intent_based_search(query)]: the function ends after its [elif], so for
    the other intents it falls off the end and returns [None]. *)
Definition intent_based_search (query : string) : option Result :=
  let intent := Intent.classify_query_intent query in
  if String.eqb intent "definition" then
    Some (search query 10 ["definitions"])
  else if String.eqb intent "coverage_check" then
    Some (search query 15 ["benefits"; "exclusions"])
  else None.

End IntentBasedSearch.

(** [text.split('. ')]: the pieces between the occurrences of a full stop
    followed by a space, found from left to right. [cur] holds the piece
    being read, in reverse. *)
Fixpoint split_sentences_aux (cur : string) (s : string) : list string :=
  match s with
  | EmptyString => [rev cur]
  | String c s' =>
      match s' with
      | String d s'' =>
          if Ascii.eqb c "."%char && Ascii.eqb d " "%char
          then rev cur :: split_sentences_aux "" s''
          else split_sentences_aux (String c cur) s'
      | EmptyString => split_sentences_aux (String c cur) s'
      end
  end.

Definition split_sentences (text : string) : list string :=
  split_sentences_aux "" text.

Section SemanticChunking.

(** [model.encode(sentence)] and [cosine_similarity(a, b)]. What [encode]
    returns is a Python value: [None] is Python's [None], which the loop
    tests for. *)
Variable Embedding : Type.
Variable encode : string -> option Embedding.
Variable cosine_similarity : option Embedding -> option Embedding -> Q.

(** The variables of the loop of [semantic_chunk_text]. *)
Record ChunkState : Type := mkChunkState {
  chunks : list string;
  current_chunk : string;
  prev_embedding : option Embedding
}.

(** One turn of [for sentence in sentences]. *)
Definition chunk_step (st : ChunkState) (sentence : string) : ChunkState :=
  let sentence_emb := encode sentence in
  match prev_embedding st with
  | Some _ =>
      let similarity := cosine_similarity (prev_embedding st) sentence_emb in
      if negb (Qle_bool 0.75 similarity)
         && (300 <? String.length (current_chunk st))%nat
      then mkChunkState (chunks st ++ [current_chunk st])%list sentence
             sentence_emb
      else mkChunkState (chunks st)
             (current_chunk st ++ ". " ++ sentence) sentence_emb
  | None => mkChunkState (chunks st) sentence sentence_emb
  end.

(** [semantic_chunk_text(text, model)] *)
Definition semantic_chunk_text (text : string) : list string :=
  let st :=
    fold_left chunk_step (split_sentences text) (mkChunkState [] "" None) in
  if String.eqb (current_chunk st) "" then chunks st
  else (chunks st ++ [current_chunk st])%list.

(** The model gives an embedding for the sentence, not [None]. *)
Definition encodes (sentence : string) : bool :=
  match encode sentence with
  | Some _ => true
  | None => false
  end.

End SemanticChunking.

(** The terms of [INSURANCE_SYNONYMS] that occur in a query, with their
    synonyms, in the order of the table. *)
Definition matching_synonyms (query : string) : list (string * list string) :=
  List.filter (fun entry => contains (lower (fst entry)) (lower query))
    Reranking.INSURANCE_SYNONYMS.

(** What [expand_query] appends for one matching term. *)
Definition synonym_clause (entry : string * list string) : string :=
  " " ++ join " OR " (snd entry).

(** What the loop of [semantic_chunk_text] keeps true after it has read the
    sentences [seen], as long as the model gave an embedding for each: the
    closed chunks and the open one, joined by the separator, are the
    sentences read, and every closed chunk is longer than 300 characters. *)
Definition chunk_invariant {Embedding : Type} (st : ChunkState Embedding)
    (seen : list string) : Prop :=
  match prev_embedding Embedding st with
  | None => seen = [] /\ chunks Embedding st = []
            /\ current_chunk Embedding st = ""
  | Some _ =>
      seen <> []
      /\ join ". " (chunks Embedding st ++ [current_chunk Embedding st])%list
         = join ". " seen
  end
  /\ Forall (fun c => (300 < String.length c)%nat) (chunks Embedding st).

(** An embedding model that answers every sentence, one that answers none,
    and a similarity that is always low. *)
Definition length_model (sentence : string) : option nat :=
  Some (String.length sentence).

Definition silent_model (sentence : string) : option nat := None.

Definition unlike (a b : option nat) : Q := 0.

End RagNotes.

(** ** DocumentManager.jsx: the requests *)

Module DocumentManagerOps.
Import JsStr DocumentManager.

(** What a handler does to the outside, in order. *)
Inductive Effect : Type :=
| GetDocumentList
| NotifyParent (docs : list Document)
| PostUpload (file : File)
| ResetFileInput
| Confirm (message : string)
| DeleteDocument (docId : string)
| ConsoleError (label : string).

(** How an axios request ends: with the response's data, or with an error
    whose [err.response?.data?.detail] may be missing. *)
Inductive Outcome (A : Type) : Type :=
| Succeeded (data : A)
| Rejected (detail : option string).

Arguments Succeeded {A} data.
Arguments Rejected {A} detail.

(** [detail || fallback]: a missing or empty detail gives the fallback. *)
Definition or_default (detail : option string) (fallback : string) : string :=
  match detail with
  | Some d => if String.eqb d "" then fallback else d
  | None => fallback
  end.

Definition setDocuments (docs : list Document) (st : State) : State :=
  mkState docs (loading st) (uploading st) (error st) (success st)
          (selectedFile st).

Definition setLoading (b : bool) (st : State) : State :=
  mkState (documents st) b (uploading st) (error st) (success st)
          (selectedFile st).

Definition setUploading (b : bool) (st : State) : State :=
  mkState (documents st) (loading st) b (error st) (success st)
          (selectedFile st).

Definition setSuccess (msg : string) (st : State) : State :=
  mkState (documents st) (loading st) (uploading st) (error st) msg
          (selectedFile st).

(** The text of the confirmation dialog of [handleDelete]. *)
Definition delete_question (filename : string) : string :=
  "Are you sure you want to delete " ++ String (ascii_of_nat 34) filename
  ++ String (ascii_of_nat 34)
       "? This will remove all associated chunks and cannot be undone.".

Section Requests.

(** [GET /api/v1/documents/list]: [response.data.documents], which may be
    missing. *)
Variable list_documents : Outcome (option (list Document)).
(** Whether the parent passed [onDocumentsChange]. *)
Variable has_onDocumentsChange : bool.
(** [POST /api/v1/documents/upload]: [response.data.filename] and
    [response.data.chunks_created] as the template prints it. *)
Variable upload : File -> Outcome (string * string).
(** [DELETE /api/v1/documents/documents/${docId}] *)
Variable delete_document : string -> Outcome unit.
(** [confirm(message)] *)
Variable confirm : string -> bool.

Definition fetchDocuments (st : State) : State * list Effect :=
  let st1 := setError "" (setLoading true st) in
  match list_documents with
  | Succeeded field =>
      let docs := default [] field in
      (setLoading false (setDocuments docs st1),
       GetDocumentList
       :: (if has_onDocumentsChange then [NotifyParent docs] else []))
  | Rejected _ =>
      (setLoading false (setError "Failed to load documents" st1),
       [GetDocumentList; ConsoleError "Failed to fetch documents:"])
  end.

Definition handleUpload (st : State) : State * list Effect :=
  match selectedFile st with
  | None => (setError "Please select a file first" st, [])
  | Some file =>
      let st1 := setSuccess "" (setError "" (setUploading true st)) in
      match upload file with
      | Succeeded (filename, chunks_created) =>
          let st2 :=
            setSelectedFile None
              (setSuccess
                 ("Successfully uploaded " ++ filename ++ " ("
                  ++ chunks_created ++ " chunks created)") st1) in
          let refreshed := fetchDocuments st2 in
          (setUploading false refreshed.1,
           PostUpload file :: ResetFileInput :: refreshed.2)
      | Rejected detail =>
          (setUploading false
             (setError (or_default detail "Failed to upload document") st1),
           [PostUpload file; ConsoleError "Upload failed:"])
      end
  end.

Definition handleDelete (docId filename : string) (st : State)
  : State * list Effect :=
  if negb (confirm (delete_question filename))
  then (st, [Confirm (delete_question filename)])
  else
    let st1 := setSuccess "" (setError "" st) in
    match delete_document docId with
    | Succeeded _ =>
        let st2 := setSuccess ("Successfully deleted " ++ filename) st1 in
        let refreshed := fetchDocuments st2 in
        (refreshed.1,
         Confirm (delete_question filename) :: DeleteDocument docId
         :: refreshed.2)
    | Rejected detail =>
        (setError (or_default detail "Failed to delete document") st1,
         [Confirm (delete_question filename); DeleteDocument docId;
          ConsoleError "Delete failed:"])
    end.

End Requests.

Definition is_list_request (e : Effect) : bool :=
  match e with
  | GetDocumentList => true
  | _ => false
  end.

Definition is_upload (e : Effect) : bool :=
  match e with
  | PostUpload _ => true
  | _ => false
  end.

Definition is_delete (e : Effect) : bool :=
  match e with
  | DeleteDocument _ => true
  | _ => false
  end.

End DocumentManagerOps.

(** ** Chat.jsx: what the response stream leaves in the messages *)

Module ChatStream.
Import JsStr Chat.

Section Stream.

Variable JSON_parse : string -> option Data.

(** The content a line adds to the answer: that of a [data: ] line whose
    JSON has the type token. *)
Definition line_token (line : string) : option string :=
  if startsWith line "data: " then
    match JSON_parse (slice_from 6 line) with
    | Some data =>
        if String.eqb (data_type data) "token" then Some (data_content data)
        else None
    | None => None
    end
  else None.

(** A line on which [JSON.parse] throws. *)
Definition line_throws (line : string) : bool :=
  startsWith line "data: "
  && match JSON_parse (slice_from 6 line) with
     | Some _ => false
     | None => true
     end.

(** All lines of all chunks, in the order they are read. *)
Definition stream_lines (chunks : list string) : list string :=
  concat (map split_lines chunks).

(** The lines read before the first one that throws. *)
Fixpoint lines_before_throw (lines : list string) : list string :=
  match lines with
  | [] => []
  | line :: rest =>
      if line_throws line then [] else line :: lines_before_throw rest
  end.

(** The token contents of a list of lines. *)
Definition tokens_of (lines : list string) : list string :=
  omap line_token lines.

(** The assistant's message for the tokens received: none before the first
    token, else one message with the contents in a row. *)
Definition answer_of (tokens : list string) : list Message :=
  match tokens with
  | [] => []
  | _ => [mkMessage "assistant" (String.concat "" tokens)]
  end.

(** No line throws. *)
Definition no_throw (lines : list string) : bool :=
  forallb (fun line => negb (line_throws line)) lines.

End Stream.

End ChatStream.

(** ** Chat.jsx: [handleFileUpload] *)

Module ChatUpload.
Import JsStr Chat.

Inductive Effect : Type :=
| PostUpload (file : DocumentManager.File)
| Alert (message : string).

Definition setFile (f : option string) (st : State) : State :=
  mkState (query st) (messages st) (loading st) f (uploading st).

Definition setUploading (b : bool) (st : State) : State :=
  mkState (query st) (messages st) (loading st) (file st) b.

Section Upload.

(** [POST /api/v1/documents/upload] *)
Variable upload : DocumentManager.File -> DocumentManagerOps.Outcome unit.

(** [handleFileUpload(e)], with [e.target.files[0]] as [chosen]. *)
Definition handleFileUpload (chosen : option DocumentManager.File)
    (st : State) : State * list Effect :=
  match chosen with
  | None => (st, [])
  | Some selectedFile =>
      let st1 := setUploading true st in
      match upload selectedFile with
      | DocumentManagerOps.Succeeded _ =>
          (setUploading false (setFile None st1),
           [PostUpload selectedFile; Alert "Document uploaded successfully!"])
      | DocumentManagerOps.Rejected detail =>
          (setUploading false st1,
           [PostUpload selectedFile;
            Alert (DocumentManagerOps.or_default detail "Upload failed")])
      end
  end.

End Upload.

End ChatUpload.

(** ** Profile.jsx: [handleChangePassword] *)

Module Profile.
Import JsStr.

(** The [useState] cells the handler reads or writes. *)
Record State : Type := mkState {
  loading : bool;
  error : string;
  success : string;
  currentPassword : string;
  newPassword : string;
  confirmPassword : string
}.

Inductive Effect : Type :=
| PreventDefault
| PostChangePassword (current_password new_password : string)
| ClearSuccessAfter (ms : Z).

Definition setLoading (b : bool) (st : State) : State :=
  mkState b (error st) (success st) (currentPassword st) (newPassword st)
          (confirmPassword st).

Definition setError (msg : string) (st : State) : State :=
  mkState (loading st) msg (success st) (currentPassword st) (newPassword st)
          (confirmPassword st).

Definition setSuccess (msg : string) (st : State) : State :=
  mkState (loading st) (error st) msg (currentPassword st) (newPassword st)
          (confirmPassword st).

Definition clearPasswords (st : State) : State :=
  mkState (loading st) (error st) (success st) "" "" "".

Section Requests.

(** [POST /api/v1/auth/change-password] *)
Variable change_password :
  string -> string -> DocumentManagerOps.Outcome unit.

Definition handleChangePassword (st : State) : State * list Effect :=
  let st0 := setSuccess "" (setError "" st) in
  if negb (String.eqb (newPassword st) (confirmPassword st))
  then (setError "New passwords do not match" st0, [PreventDefault])
  else if (String.length (newPassword st) <? 6)%nat
  then (setError "New password must be at least 6 characters" st0,
        [PreventDefault])
  else
    let st1 := setLoading true st0 in
    let request :=
      PostChangePassword (currentPassword st) (newPassword st) in
    match change_password (currentPassword st) (newPassword st) with
    | DocumentManagerOps.Succeeded _ =>
        (setLoading false
           (clearPasswords (setSuccess "Password changed successfully!" st1)),
         [PreventDefault; request; ClearSuccessAfter 3000])
    | DocumentManagerOps.Rejected detail =>
        (setLoading false
           (setError
              (DocumentManagerOps.or_default detail
                 "Failed to change password") st1),
         [PreventDefault; request])
    end.

End Requests.

Definition is_request (e : Effect) : bool :=
  match e with
  | PostChangePassword _ _ => true
  | _ => false
  end.

End Profile.

(** ** App.jsx *)

Module App.
Import JsStr.

(** [localStorage]: its keys and their values. *)
Abbreviation Storage := (gmap string string).

Section WithUser.

(** The user data the login form hands over. *)
Variable User : Type.

(** The [useState] cells; [None] is [null]. *)
Record State : Type := mkState {
  token : option string;
  user : option User
}.

(** The cells at the first render: the token is read from the storage. *)
Definition initial (storage : Storage) : State :=
  mkState (storage !! "token") None.

Definition handleLogin (authToken : string) (userData : User)
    (app : State * Storage) : State * Storage :=
  (mkState (Some authToken) (Some userData), <["token" := authToken]> app.2).

Definition handleLogout (app : State * Storage) : State * Storage :=
  (mkState None None, delete "token" app.2).

(** [!token]: the login form is shown. *)
Definition shows_login (st : State) : bool :=
  match token st with
  | Some t => negb (truthy t)
  | None => true
  end.

Inductive Event : Type :=
| Login (authToken : string) (userData : User)
| Logout.

Definition handle (app : State * Storage) (ev : Event) : State * Storage :=
  match ev with
  | Login authToken userData => handleLogin authToken userData app
  | Logout => handleLogout app
  end.

(** The page is loaded with [storage], then the events happen in order. *)
Definition run (storage : Storage) (events : list Event) : State * Storage :=
  fold_left handle events (initial storage, storage).

(** What every step keeps: the token cell is the stored token, and the
    other keys of the storage are those of [storage]. *)
Definition in_step (storage : Storage) (app : State * Storage) : Prop :=
  token app.1 = app.2 !! "token"
  /\ forall k : string, k <> "token" -> app.2 !! k = storage !! k.

End WithUser.

Arguments mkState {User} token user.
Arguments token {User} s.
Arguments user {User} s.
Arguments initial {User} storage.
Arguments handleLogin {User} authToken userData app.
Arguments handleLogout {User} app.
Arguments shows_login {User} st.
Arguments Login {User} authToken userData.
Arguments Logout {User}.
Arguments handle {User} app ev.
Arguments run {User} storage events.
Arguments in_step {User} storage app.

End App.

(** ** Chat.jsx with chat sessions: deleting and titling a session *)

Module ChatSessions.
Import JsStr.

(** A session identifier as JavaScript has it. *)
Inductive Id : Type :=
| null
| undefined
| str (s : string).

#[export] Instance Id_eq_dec : EqDecision Id.
Proof. solve_decision. Defined.

(** [a === b] *)
Definition strict_eq (a b : Id) : bool := bool_decide (a = b).

Definition id_truthy (a : Id) : bool :=
  match a with
  | str s => truthy s
  | _ => false
  end.

(** [a || b] *)
Definition or_else (a b : Id) : Id := if id_truthy a then a else b.

Record Session : Type := mkSession {
  id : Id;
  _id : Id;
  title : string
}.

(** [session.id || session._id], the key the sidebar passes to the
    handlers. *)
Definition key (s : Session) : Id := or_else (id s) (_id s).

(** The [useState] cells the session handlers read or write. *)
Record State : Type := mkState {
  chatSessions : list Session;
  currentSessionId : Id;
  messages : list Chat.Message
}.

Inductive Effect : Type :=
| Confirm (message : string)
| DeleteSession (sessionId : Id)
| ConsoleError (label : string)
| Alert (message : string).

Section Requests.

(** [confirm(message)] *)
Variable confirm : string -> bool.
(** [DELETE /api/v1/chat/sessions/${sessionId}]: whether it went through. *)
Variable delete_session : Id -> bool.

Definition deleteChatSession (sessionId : Id) (st : State)
  : State * list Effect :=
  let question := "Are you sure you want to delete this chat?" in
  if negb (confirm question) then (st, [Confirm question])
  else if delete_session sessionId then
    let sessions :=
      List.filter (fun s => negb (strict_eq (id s) sessionId))
        (chatSessions st) in
    (if strict_eq (currentSessionId st) sessionId
     then mkState sessions null []
     else mkState sessions (currentSessionId st) (messages st),
     [Confirm question; DeleteSession sessionId])
  else
    (st,
     [Confirm question; DeleteSession sessionId;
      ConsoleError "Failed to delete chat session:";
      Alert "Failed to delete chat session"]).

End Requests.

(** [s.substring(0, n)] *)
Definition substring_to (n : nat) (s : string) : string :=
  String.substring 0 n s.

(** The title [handleQuery] gives a new chat: the first query, cut after
    50 characters. *)
Definition session_title (query : string) : string :=
  if (50 <? String.length query)%nat then substring_to 50 query ++ "..."
  else query.

(** The update of the session list at the end of [handleQuery]:
    [sessionId] is the session the query went to, [shown] the messages
    the handler was rendered with. *)
Definition update_title (sessionId : Id) (shown : list Chat.Message)
    (query : string) (sessions : list Session) : list Session :=
  if id_truthy sessionId && (length shown =? 0)%nat then
    map (fun s =>
           if strict_eq (key s) sessionId
           then mkSession (id s) (_id s) (session_title query)
           else s) sessions
  else sessions.

End ChatSessions.

(** ** Inputs for the example of a tie in the ranking *)

Module RankingSamples.

(** Two vector stores that return the same two chunks, of the same length,
    in opposite orders. *)
Definition store_a (text : string) (n_results : Z) : list string :=
  ["waiting period 30 days"; "waiting period 90 days"].

Definition store_b (text : string) (n_results : Z) : list string :=
  ["waiting period 90 days"; "waiting period 30 days"].

End RankingSamples.

(** ** Inputs for the examples of the front end *)

Module Scenarios.

Definition failing_upload (file : DocumentManager.File)
  : DocumentManagerOps.Outcome (string * string) :=
  DocumentManagerOps.Rejected (Some "File type not supported").

Definition mongo_session : ChatSessions.Session :=
  ChatSessions.mkSession ChatSessions.undefined (ChatSessions.str "65a1")
    "Claim form".

Definition sessions_state : ChatSessions.State :=
  ChatSessions.mkState
    [ChatSessions.mkSession (ChatSessions.str "7") ChatSessions.undefined
       "Dental cover";
     mongo_session]
    (ChatSessions.str "65a1") [Chat.mkMessage "user" "Is dental covered?"].

Definition always_yes (message : string) : bool := true.

Definition delete_goes_through (sessionId : ChatSessions.Id) : bool := true.

End Scenarios.

(** * Theorems *)

Module PyStrFacts.
Import PyStr.

Lemma append_cons (c : ascii) (a b : string) :
  String c a ++ b = String c (a ++ b).
Proof. reflexivity. Qed.

Lemma prefix_spec (w s : string) :
  String.prefix w s = true <-> exists b : string, s = w ++ b.
Proof.
  revert s. induction w as [|c w IH]; intros s.
  - split; [intros _; by exists s|intros _; by destruct s].
  - destruct s as [|d s]; simpl; [split; [done|by intros [b Hb]]|].
    destruct (ascii_dec c d) as [->|Hne].
    + rewrite IH. split; intros [b Hb]; exists b.
      * by rewrite append_cons, Hb.
      * rewrite append_cons in Hb. congruence.
    + split; [done|]. intros [b Hb]. rewrite append_cons in Hb. congruence.
Qed.

(** [contains w s] is Python's [w in s]: [w] stands somewhere in [s]. *)
Lemma contains_spec (w s : string) :
  contains w s = true <-> exists a b : string, s = a ++ w ++ b.
Proof.
  induction s as [|d s IH]; cbn [contains].
  - rewrite orb_false_r, prefix_spec. split.
    + intros [b Hb]. by exists "", b.
    + intros (a & b & Hs). destruct a; [by exists b|discriminate].
  - rewrite orb_true_iff, IH, prefix_spec. split.
    + intros [[b Hb]|(a & b & Hs)].
      * by exists "", b.
      * exists (String d a), b. by rewrite append_cons, Hs.
    + intros (a & b & Hs). destruct a as [|e a].
      * left. by exists b.
      * right. exists a, b. rewrite append_cons in Hs. congruence.
Qed.

Lemma length_append (a b : string) :
  String.length (a ++ b) = (String.length a + String.length b)%nat.
Proof.
  induction a as [|c a IH]; [done|].
  rewrite append_cons. simpl. by rewrite IH.
Qed.

Lemma append_nonempty (s : string) (c : ascii) (t : string) :
  (s ++ String c t)%string <> "".
Proof. destruct s; discriminate. Qed.

Lemma rev_nonempty (s : string) : s <> "" -> rev s <> "".
Proof. destruct s as [|c s]; [done|]. intros _. apply append_nonempty. Qed.

End PyStrFacts.

Module AdaptiveScoringFacts.
Import AdaptiveScoring.
Local Open Scope Q_scope.

Lemma all_signals_complete (g : Signal) : In g all_signals.
Proof. destruct g; simpl; tauto. Qed.

Lemma all_signals_nine : List.length all_signals = 9%nat.
Proof. reflexivity. Qed.

(** C4. For each of the four query types the score is the weighted sum of
    the nine sub-scores under a weight vector that is defined on every one
    of the nine signals, and the nine weights add up to exactly 1. *)
Theorem weights_sum_to_one (t : QueryType) :
  (forall g : Signal, In g all_signals)
  /\ List.length all_signals = 9%nat
  /\ (forall s : SubScores, score (name t) s == weighted_sum (name t) s)
  /\ Qsum (map (weight (name t)) all_signals) == 1.
Proof.
  split; [apply all_signals_complete|]. split; [reflexivity|]. split.
  - intros [sem lex hy con exc ctx mul len met].
    destruct t; unfold weighted_sum, Qsum, weight, score; simpl; ring.
  - destruct t; vm_compute; reflexivity.
Qed.

(** Each formula names only some of the nine sub-scores: a signal has
    weight 0 under a query type exactly when the formula of that type leaves
    it out, and no weight is negative. *)
Lemma weights_left_out (t : QueryType) (g : Signal) :
  (weight (name t) g == 0 <-> In g (left_out t))
  /\ 0 <= weight (name t) g.
Proof.
  split.
  - destruct t, g; vm_compute; split; intros H;
      solve [ reflexivity | discriminate H | tauto
            | repeat (destruct H as [H|H]; [discriminate H|]); contradiction
            | intuition discriminate ].
  - destruct t, g; vm_compute; discriminate.
Qed.

(** In binary64 too: added in the order of the formula, the weights of
    each query type give exactly 1.0. *)
Lemma weights_sum_to_one_binary64 (t : QueryType) :
  AdaptiveScoringBinary64.score (name t) AdaptiveScoringBinary64.all_ones
  = 1%float.
Proof. destruct t; vm_compute; reflexivity. Qed.

End AdaptiveScoringFacts.

Module IntentFacts.
Import PyStr Intent.

(** C7 (as the code has it). For every query string, [classify_query_intent]
    returns one of exactly four values: definition, coverage_check,
    amount_query and general; each of the four is returned for some query,
    and neither exclusion nor coverage ever is. *)
Theorem classify_query_intent_labels :
  (forall query : string, In (classify_query_intent query) intent_labels)
  /\ (forall label : string,
        In label intent_labels ->
        exists query : string, classify_query_intent query = label)
  /\ (forall query : string,
        classify_query_intent query <> "exclusion"
        /\ classify_query_intent query <> "coverage").
Proof.
  split; [|split].
  - intros query. unfold classify_query_intent, intent_labels.
    repeat case_match; simpl; tauto.
  - intros label Hl. unfold intent_labels in Hl. simpl in Hl.
    destruct Hl as [<-|[<-|[<-|[<-|[]]]]].
    + exists "define deductible". reflexivity.
    + exists "Is dental care included?". reflexivity.
    + exists "How much is the co-pay?". reflexivity.
    + exists "hello". reflexivity.
  - intros query. unfold classify_query_intent.
    repeat case_match; split; discriminate.
Qed.

(** C7, as stated, fails: a query about what is included is classified
    coverage_check, which is none of definition, exclusion, coverage and
    general. *)
Lemma classify_query_intent_outside_spec_types :
  classify_query_intent "Is dental care included?" = "coverage_check"
  /\ ~ In (classify_query_intent "Is dental care included?") spec_query_types.
Proof.
  split; [reflexivity|].
  vm_compute. intros H.
  repeat (destruct H as [H|H]; [discriminate H|]). exact H.
Qed.

End IntentFacts.

Module RerankingFacts.
Import PyStr Reranking.
Local Open Scope Q_scope.

Lemma slice_to_nonneg {A : Type} (l : list A) (k : Z) :
  (0 <= k)%Z -> slice_to l k = take (Z.to_nat k) l.
Proof.
  intros Hk. unfold slice_to.
  destruct (Z.leb_spec 0 k) as [_|Hlt]; [reflexivity|lia].
Qed.

(** A slice [l[:k]] is a prefix of [l], whatever the sign of [k]. *)
Lemma slice_to_prefix {A : Type} (l : list A) (k : Z) :
  exists n : nat, slice_to l k = take n l.
Proof. unfold slice_to. destruct (0 <=? k)%Z; eauto. Qed.

Lemma insert_desc_Permutation key x l : insert_desc key x l ≡ₚ x :: l.
Proof.
  induction l as [|y l IH]; simpl; [reflexivity|].
  destruct (Qlt_le_dec (key x) (key y)); [|reflexivity].
  rewrite IH. apply perm_swap.
Qed.

Lemma sorted_reverse_Permutation key l : sorted_reverse key l ≡ₚ l.
Proof.
  induction l as [|x l IH]; simpl; [reflexivity|].
  rewrite insert_desc_Permutation. by rewrite IH.
Qed.

Lemma ranks_before_score key i j : ranks_before key i j -> key j <= key i.
Proof.
  intros [Hlt|[Heq _]]; [by apply Qlt_le_weak|].
  rewrite Heq. apply Qle_refl.
Qed.

Lemma insert_desc_sorted key x l :
  Forall (fun z => (x < z)%nat) l ->
  StronglySorted (ranks_before key) l ->
  StronglySorted (ranks_before key) (insert_desc key x l).
Proof.
  induction l as [|y l IH]; intros Hx Hs; simpl.
  - repeat constructor.
  - apply Forall_cons in Hx as [Hxy Hx].
    apply StronglySorted_cons in Hs as [Hy Hs].
    destruct (Qlt_le_dec (key x) (key y)) as [Hlt|Hle].
    + apply StronglySorted_cons. split; [|by apply IH].
      rewrite insert_desc_Permutation. constructor; [by left|done].
    + assert (Hall : forall z, z ∈ y :: l -> key z <= key x /\ (x < z)%nat).
      { intros z [->|Hz]%elem_of_cons; [done|]. split.
        - rewrite Forall_forall in Hy.
          eapply Qle_trans; [apply ranks_before_score, Hy, Hz|done].
        - rewrite Forall_forall in Hx. by apply Hx. }
      apply StronglySorted_cons. split.
      * apply Forall_forall. intros z Hz. destruct (Hall z Hz) as [Hzx Hlt].
        destruct (Qlt_le_dec (key z) (key x)) as [Hz'|Hz']; [by left|].
        right. split; [by apply Qle_antisym|done].
      * apply StronglySorted_cons. done.
Qed.

(** Sorting a list of increasing indices: higher scores first, and equal
    scores in increasing index order, which is the order they came in. *)
Lemma sorted_reverse_sorted key l :
  StronglySorted lt l ->
  StronglySorted (ranks_before key) (sorted_reverse key l).
Proof.
  induction l as [|x l IH]; intros Hl; simpl; [constructor|].
  apply StronglySorted_cons in Hl as [Hx Hl].
  apply insert_desc_sorted; [|by apply IH].
  by rewrite sorted_reverse_Permutation.
Qed.

Lemma range_sorted n : StronglySorted lt (range n).
Proof.
  unfold range. generalize 0%nat as s.
  induction n as [|n IH]; intros s; simpl; constructor; [apply IH|].
  apply Forall_forall. intros z Hz%elem_of_seq. lia.
Qed.

Lemma take_StronglySorted {A : Type} (R : relation A) n l :
  StronglySorted R l -> StronglySorted R (take n l).
Proof.
  intros Hs. rewrite <- (take_drop n l) in Hs.
  by apply StronglySorted_app_1_l in Hs.
Qed.

Lemma top_indices_sublist scores k :
  top_indices scores k
    `sublist_of` sorted_reverse (score_at scores) (range (length scores)).
Proof.
  unfold top_indices. destruct (slice_to_prefix
    (sorted_reverse (score_at scores) (range (length scores))) k) as [n ->].
  apply sublist_take.
Qed.

Lemma top_indices_NoDup scores k : NoDup (top_indices scores k).
Proof.
  eapply sublist_NoDup; [|apply top_indices_sublist].
  rewrite sorted_reverse_Permutation. apply NoDup_seq.
Qed.

Lemma top_indices_valid scores k i :
  i ∈ top_indices scores k -> (i < length scores)%nat.
Proof.
  intros Hi. eapply elem_of_sublist in Hi; [|apply top_indices_sublist].
  rewrite sorted_reverse_Permutation in Hi.
  apply elem_of_seq in Hi. lia.
Qed.

Lemma top_indices_length scores k :
  (0 <= k)%Z ->
  length (top_indices scores k) = Z.to_nat k `min` length scores.
Proof.
  intros Hk. unfold top_indices. rewrite slice_to_nonneg by done.
  rewrite length_take, sorted_reverse_Permutation.
  unfold range. by rewrite length_seq.
Qed.

(** A negative top_k cuts that many indices off the end of the ranking. *)
Lemma top_indices_length_negative scores k :
  (k < 0)%Z ->
  length (top_indices scores k)
  = Z.to_nat (Z.of_nat (length scores) + k).
Proof.
  intros Hk. unfold top_indices, slice_to.
  destruct (Z.leb_spec 0 k) as [Hge|_]; [lia|].
  rewrite length_take, !sorted_reverse_Permutation.
  unfold range. rewrite length_seq. lia.
Qed.

Lemma ranks_before_asym key i j :
  ranks_before key i j -> ranks_before key j i -> False.
Proof.
  intros [Hij|[Hij Hlt]] [Hji|[Hji Hlt']].
  - eapply Qlt_irrefl, Qlt_trans; eauto.
  - rewrite Hji in Hij. by apply Qlt_irrefl in Hij.
  - rewrite Hij in Hji. by apply Qlt_irrefl in Hji.
  - lia.
Qed.

(** What [sorted(range(n), key=..., reverse=True)] returns is fixed by its
    contract: the one arrangement of the indices with higher scores first
    and equal scores in increasing index order. *)
Lemma sorted_reverse_unique key n (l : list nat) :
  l ≡ₚ range n ->
  StronglySorted (ranks_before key) l ->
  l = sorted_reverse key (range n).
Proof.
  intros Hp Hs.
  apply (StronglySorted_unique_strong (ranks_before key)).
  - intros i j _ _ Hij Hji. destruct (ranks_before_asym key i j Hij Hji).
  - done.
  - apply sorted_reverse_sorted, range_sorted.
  - by rewrite sorted_reverse_Permutation.
Qed.

Lemma top_indices_all scores k :
  (Z.of_nat (length scores) <= k)%Z ->
  top_indices scores k ≡ₚ range (length scores).
Proof.
  intros Hk. unfold top_indices. rewrite slice_to_nonneg by lia.
  rewrite take_ge; [apply sorted_reverse_Permutation|].
  rewrite sorted_reverse_Permutation. unfold range. rewrite length_seq. lia.
Qed.

Lemma top_indices_sorted scores k :
  StronglySorted (ranks_before (score_at scores)) (top_indices scores k).
Proof.
  unfold top_indices. destruct (slice_to_prefix
    (sorted_reverse (score_at scores) (range (length scores))) k) as [n ->].
  apply take_StronglySorted, sorted_reverse_sorted, range_sorted.
Qed.

Section SearchWithReranking.
Variable search : string -> Z -> list string.
Variable calculate_relevance_score : string -> string -> Q.

Lemma relevance_scores_length query_text chunks :
  length (relevance_scores calculate_relevance_score query_text chunks)
  = length chunks.
Proof. unfold relevance_scores. apply length_map. Qed.

(** C1 (as the code has it). For every query and every top_k that is not
    negative, the ranking of [search_with_reranking] has at most top_k
    entries and ranks no position of the retrieved pool twice, so that no
    fragment identifier occurs twice in it whenever the fragments of the
    pool have distinct identifiers ([identifier i] being the identifier of
    the fragment at position [i]; the function removes no duplicates of its
    own). Every ranked position is one of the pool, and when the pool has
    fewer than top_k fragments the ranking has exactly the pool's size, each
    position of the pool once. *)
Theorem search_with_reranking_at_most_top_k
    (query_text : string) (n_results final_top_k : Z) :
  (0 <= final_top_k)%Z ->
  (Z.of_nat
     (length (search_with_reranking search calculate_relevance_score
                query_text n_results final_top_k))
   <= final_top_k)%Z
  /\ NoDup (search_with_reranking search calculate_relevance_score
              query_text n_results final_top_k)
  /\ (forall (Id : Type) (identifier : nat -> Id),
        (forall i j : nat,
            (i < length (retrieved_chunks search query_text n_results))%nat ->
            (j < length (retrieved_chunks search query_text n_results))%nat ->
            identifier i = identifier j -> i = j) ->
        NoDup (identifier
                 <$> search_with_reranking search calculate_relevance_score
                       query_text n_results final_top_k))
  /\ (forall i : nat,
        i ∈ search_with_reranking search calculate_relevance_score
              query_text n_results final_top_k ->
        is_Some (retrieved_chunks search query_text n_results !! i))
  /\ ((Z.of_nat (length (retrieved_chunks search query_text n_results))
       < final_top_k)%Z ->
      length (search_with_reranking search calculate_relevance_score
                query_text n_results final_top_k)
      = length (retrieved_chunks search query_text n_results)
      /\ search_with_reranking search calculate_relevance_score
           query_text n_results final_top_k
         ≡ₚ range (length (retrieved_chunks search query_text n_results))).
Proof.
  intros Hk. unfold search_with_reranking.
  set (chunks := retrieved_chunks search query_text n_results).
  set (scores := relevance_scores calculate_relevance_score query_text chunks).
  assert (Hlen : length scores = length chunks)
    by apply relevance_scores_length.
  split; [|split; [|split; [|split]]].
  - rewrite top_indices_length by done. lia.
  - apply top_indices_NoDup.
  - intros Id identifier Hinj.
    apply NoDup_fmap_2_strong; [|apply top_indices_NoDup].
    intros i j Hi%top_indices_valid Hj%top_indices_valid.
    apply Hinj; lia.
  - intros i Hi%top_indices_valid. apply lookup_lt_is_Some. lia.
  - intros Hsmall. rewrite <- Hlen. split.
    + rewrite top_indices_length by done. lia.
    + apply top_indices_all. lia.
Qed.

End SearchWithReranking.

End RerankingFacts.

Module PipelineFacts.
Import Pipeline.
Local Open Scope Q_scope.

(** *** The sort order *)

Lemma id_le_total a b : id_le a b = false -> id_le b a = true.
Proof.
  unfold id_le. rewrite (String_as_OT.cmp_antisym b a).
  by destruct (String_as_OT.cmp a b).
Qed.

Lemma id_le_spec a b : id_le a b = true <-> a = b \/ String_as_OT.lt a b.
Proof.
  unfold id_le. destruct (String_as_OT.cmp a b) eqn:E.
  - apply String_as_OT.cmp_eq in E. tauto.
  - apply String_as_OT.cmp_lt in E. tauto.
  - split; [done|]. intros [->|Hlt].
    + assert (String_as_OT.cmp b b = Eq) by by apply String_as_OT.cmp_eq.
      congruence.
    + apply String_as_OT.cmp_lt in Hlt. congruence.
Qed.

Lemma id_le_trans a b c :
  id_le a b = true -> id_le b c = true -> id_le a c = true.
Proof.
  rewrite !id_le_spec. intros [->|Hab] [->|Hbc]; eauto.
  right. eapply String_as_OT.lt_trans; eauto.
Qed.

Lemma ranks_first_spec c d :
  ranks_first c d = true
  <-> composite d < composite c
      \/ (composite c == composite d
          /\ id_le (fragment_id c) (fragment_id d) = true).
Proof.
  unfold ranks_first.
  destruct (Qcompare_spec (composite c) (composite d)) as [He|Hlt|Hgt].
  - split; [by right|]. intros [Hlt|[_ ?]]; [|done].
    rewrite He in Hlt. by apply Qlt_irrefl in Hlt.
  - split; [done|]. intros [Hgt|[He _]].
    + exfalso. eapply Qlt_irrefl, Qlt_trans; eauto.
    + rewrite He in Hlt. by apply Qlt_irrefl in Hlt.
  - split; [by left|done].
Qed.

Lemma ranks_first_total c d : ranks_first c d = false -> ranks_first d c = true.
Proof.
  unfold ranks_first. rewrite <- (Qcompare_antisym (composite c)).
  destruct (composite c ?= composite d); simpl; try done.
  apply id_le_total.
Qed.

Lemma ranks_first_trans c d e :
  ranks_first c d = true -> ranks_first d e = true -> ranks_first c e = true.
Proof.
  rewrite !ranks_first_spec.
  intros [Hcd|[Hcd Hi]] [Hde|[Hde Hj]].
  - left. eapply Qlt_trans; eauto.
  - left. by rewrite <- Hde.
  - left. by rewrite Hcd.
  - right. split; [by rewrite Hcd|]. eapply id_le_trans; eauto.
Qed.

Lemma ranks_first_score c d :
  ranks_first c d = true -> composite d <= composite c.
Proof.
  rewrite ranks_first_spec. intros [Hlt|[He _]].
  - by apply Qlt_le_weak.
  - rewrite He. apply Qle_refl.
Qed.

Lemma insert_ranked_Permutation x l : insert_ranked x l ≡ₚ x :: l.
Proof.
  induction l as [|y l IH]; simpl; [done|].
  destruct (ranks_first x y); [done|].
  rewrite IH. apply perm_swap.
Qed.

Lemma sort_by_score_Permutation l : sort_by_score l ≡ₚ l.
Proof.
  induction l as [|x l IH]; simpl; [done|].
  by rewrite insert_ranked_Permutation, IH.
Qed.

Lemma insert_ranked_sorted x l :
  StronglySorted (fun c d => ranks_first c d = true) l ->
  StronglySorted (fun c d => ranks_first c d = true) (insert_ranked x l).
Proof.
  induction l as [|y l IH]; intros Hs; simpl.
  - repeat constructor.
  - destruct (ranks_first x y) eqn:Hxy.
    + apply StronglySorted_cons. split; [|done].
      apply StronglySorted_cons in Hs as [Hy _].
      constructor; [done|].
      eapply Forall_impl; [exact Hy|].
      intros z Hz. eapply ranks_first_trans; eauto.
    + apply StronglySorted_cons in Hs as [Hy Hs].
      apply StronglySorted_cons. split; [|by apply IH].
      rewrite insert_ranked_Permutation.
      constructor; [by apply ranks_first_total|done].
Qed.

Lemma sort_by_score_sorted l :
  StronglySorted (fun c d => ranks_first c d = true) (sort_by_score l).
Proof.
  induction l as [|x l IH]; simpl; [constructor|].
  by apply insert_ranked_sorted.
Qed.

Lemma StronglySorted_sublist {A : Type} (R : relation A) (l1 l2 : list A) :
  l1 `sublist_of` l2 -> StronglySorted R l2 -> StronglySorted R l1.
Proof.
  induction 1 as [|x l1 l2 Hsub IH|x l1 l2 Hsub IH]; intros Hs.
  - constructor.
  - apply StronglySorted_cons in Hs as [Hx Hs].
    apply StronglySorted_cons. split; [|by apply IH].
    apply Forall_forall. intros z Hz. rewrite Forall_forall in Hx.
    apply Hx. eapply elem_of_sublist; eauto.
  - apply StronglySorted_cons in Hs as [_ Hs]. by apply IH.
Qed.

(** *** The greedy pass and the backfill *)

Lemma selected_cons_true c t : selected ((c, true) :: t) = c :: selected t.
Proof. unfold selected. by rewrite filter_cons_True. Qed.

Lemma selected_cons_false c t : selected ((c, false) :: t) = selected t.
Proof. unfold selected. by rewrite filter_cons_False. Qed.

Lemma diversity_pass_fst m s a cs : (diversity_pass m s a cs).*1 = cs.
Proof.
  revert s a. induction cs as [|c cs IH]; intros s a; simpl; [done|].
  destruct s; [|case_decide]; simpl; by rewrite IH.
Qed.

Lemma backfill_fst free t : (backfill free t).*1 = t.*1.
Proof.
  revert free. induction t as [|[c []] t IH]; intros free; simpl; [done| |].
  - by rewrite IH.
  - destruct free; simpl; by rewrite IH.
Qed.

Lemma backfill_zero t : backfill 0 t = t.
Proof.
  induction t as [|[c []] t IH]; simpl; [done| |]; by rewrite IH.
Qed.

Lemma selected_sublist t : selected t `sublist_of` t.*1.
Proof. unfold selected. apply fmap_sublist, sublist_filter. Qed.

Lemma length_selected_le t : (length (selected t) <= length t)%nat.
Proof.
  rewrite <- (length_fmap fst t). apply sublist_length, selected_sublist.
Qed.

Lemma length_diversity_pass m s a cs :
  length (diversity_pass m s a cs) = length cs.
Proof. by rewrite <- (length_fmap fst), diversity_pass_fst. Qed.

Lemma length_selected_diversity_pass m s a cs :
  (length (selected (diversity_pass m s a cs)) <= s)%nat.
Proof.
  revert s a. induction cs as [|c cs IH]; intros s a; simpl; [lia|].
  destruct s as [|s].
  - rewrite selected_cons_false. apply IH.
  - case_decide.
    + rewrite selected_cons_true. simpl. specialize (IH s). 
      apply le_n_S, IH.
    + rewrite selected_cons_false. apply IH.
Qed.

Lemma length_selected_backfill free t :
  length (selected (backfill free t))
  = (length (selected t) + free `min` (length t - length (selected t)))%nat.
Proof.
  revert free. induction t as [|[c []] t IH]; intros free; cbn [backfill].
  - simpl. lia.
  - rewrite !selected_cons_true. cbn [length]. rewrite IH. lia.
  - pose proof (length_selected_le t).
    destruct free as [|free].
    + rewrite !selected_cons_false, backfill_zero. lia.
    + rewrite selected_cons_true, selected_cons_false. cbn [length].
      rewrite IH. lia.
Qed.

Lemma source_count_cons d c l :
  source_count d (c :: l)
  = ((if decide (source_of c = d) then 1 else 0) + source_count d l)%nat.
Proof.
  unfold source_count. rewrite filter_cons. by case_decide.
Qed.

(** The greedy pass never takes a source past the cap: with [admitted]
    within the cap for [d], what was admitted before and what the pass
    admits stay within it together. *)
Lemma diversity_pass_cap m d cs s (a : gmap string nat) :
  (default 0 (a !! d) <= m)%nat ->
  (default 0 (a !! d) + source_count d (selected (diversity_pass m s a cs))
   <= m)%nat.
Proof.
  revert s a. induction cs as [|c cs IH]; intros s a Ha; simpl.
  - unfold source_count. simpl. lia.
  - destruct s as [|s].
    + rewrite selected_cons_false. by apply IH.
    + case_decide as Hn.
      * rewrite selected_cons_true, source_count_cons.
        specialize (IH s (<[source_of c := S (default 0%nat (a !! source_of c))]> a)).
        case_decide as Hd.
        -- subst d. rewrite lookup_insert_eq in IH. simpl in IH.
           specialize (IH Hn). lia.
        -- rewrite lookup_insert_ne in IH by done.
           specialize (IH Ha). lia.
      * rewrite selected_cons_false. by apply IH.
Qed.

Lemma greedy_selection_cap scored top_k max_per_source d :
  (source_count d (greedy_selection scored top_k max_per_source)
   <= max_per_source)%nat.
Proof.
  unfold greedy_selection.
  pose proof (diversity_pass_cap max_per_source d (sort_by_score scored)
                top_k ∅) as H.
  rewrite lookup_empty in H. simpl in H. apply H. lia.
Qed.

(** *** The reranker *)

Lemma backfill_all_selected free t :
  length (selected t) = length t -> backfill free t = t.
Proof.
  revert free. induction t as [|[c []] t IH]; intros free Hl; cbn [backfill].
  - done.
  - rewrite selected_cons_true in Hl. cbn [length] in Hl.
    rewrite IH by lia. done.
  - rewrite selected_cons_false in Hl. cbn [length] in Hl.
    pose proof (length_selected_le t). lia.
Qed.

Lemma rerank_sublist scored top_k max_per_source :
  (rerank scored top_k max_per_source).1 `sublist_of` sort_by_score scored.
Proof.
  unfold rerank. case_decide; cbn [fst].
  - eapply transitivity; [apply selected_sublist|].
    by rewrite backfill_fst, diversity_pass_fst.
  - eapply transitivity; [apply selected_sublist|].
    by rewrite diversity_pass_fst.
Qed.

(** The reranker returns [min top_k (size of the pool)] fragments. *)
Lemma rerank_length scored top_k max_per_source :
  length (rerank scored top_k max_per_source).1
  = (top_k `min` length scored)%nat.
Proof.
  unfold rerank.
  set (tagged := diversity_pass max_per_source top_k ∅ (sort_by_score scored)).
  assert (Hn : (length (selected tagged) <= top_k)%nat)
    by apply length_selected_diversity_pass.
  assert (Hl : length tagged = length scored).
  { unfold tagged. by rewrite length_diversity_pass, sort_by_score_Permutation. }
  pose proof (length_selected_le tagged).
  case_decide; cbn [fst].
  - rewrite length_selected_backfill. lia.
  - lia.
Qed.

(** The order of the sort survives the greedy pass and the backfill. *)
Lemma rerank_sorted scored top_k max_per_source :
  StronglySorted (fun c d => ranks_first c d = true)
    (rerank scored top_k max_per_source).1.
Proof.
  eapply StronglySorted_sublist; [apply rerank_sublist|].
  apply sort_by_score_sorted.
Qed.

Lemma rerank_NoDup scored top_k max_per_source :
  NoDup (fragment_id <$> scored) ->
  NoDup (fragment_id <$> (rerank scored top_k max_per_source).1).
Proof.
  intros Hnd. eapply sublist_NoDup.
  - rewrite <- (sort_by_score_Permutation scored) in Hnd. exact Hnd.
  - apply fmap_sublist, rerank_sublist.
Qed.

Lemma rerank_elem_of scored top_k max_per_source c :
  c ∈ (rerank scored top_k max_per_source).1 -> c ∈ scored.
Proof.
  intros Hc. eapply elem_of_sublist in Hc; [|apply rerank_sublist].
  by rewrite sort_by_score_Permutation in Hc.
Qed.

(** C3. In the ranked result of [rerank] either no source document has more
    than max_per_source fragments, or the greedy pass admitted fewer than
    top_k, backfill added to it, and the result carries the
    diversity-shortfall report. *)
Theorem rerank_cap_or_reported_shortfall
    (scored : list ScoredCandidate) (top_k max_per_source : nat) :
  (forall d : string,
     (source_count d (rerank scored top_k max_per_source).1
      <= max_per_source)%nat)
  \/ ((length (greedy_selection scored top_k max_per_source) < top_k)%nat
      /\ (length (greedy_selection scored top_k max_per_source)
          < length (rerank scored top_k max_per_source).1)%nat
      /\ DiversityShortfall ∈ (rerank scored top_k max_per_source).2).
Proof.
  pose proof (greedy_selection_cap scored top_k max_per_source) as Hcap.
  unfold rerank, greedy_selection in *.
  set (tagged := diversity_pass max_per_source top_k ∅ (sort_by_score scored))
    in *.
  case_decide as Hn; cbn [fst snd]; [|by left].
  case_decide as Hf.
  - right. split; [done|]. split; [done|]. apply list_elem_of_here.
  - left. intros d.
    rewrite length_selected_backfill in Hf.
    destruct (decide (length (selected tagged) = length tagged)) as [He|Hne].
    + by rewrite backfill_all_selected.
    + pose proof (length_selected_le tagged).
      replace (top_k - length (selected tagged))%nat with 0%nat by lia.
      by rewrite backfill_zero.
Qed.

(** *** The report is raised only for an excess *)

Lemma source_count_backfill_mono d free t :
  (source_count d (selected t)
   <= source_count d (selected (backfill free t)))%nat.
Proof.
  revert free. induction t as [|[c []] t IH]; intros free; cbn [backfill].
  - done.
  - rewrite !selected_cons_true, !source_count_cons. specialize (IH free). lia.
  - destruct free as [|free].
    + rewrite selected_cons_false, backfill_zero. done.
    + rewrite selected_cons_true, selected_cons_false, source_count_cons.
      specialize (IH free). lia.
Qed.

(** When backfill lengthens the selection, some candidate the greedy pass
    left out adds to the count of its source. *)
Lemma backfill_adds free t :
  (length (selected t) < length (selected (backfill free t)))%nat ->
  exists c : ScoredCandidate,
    (c, false) ∈ t
    /\ (source_count (source_of c) (selected t)
        < source_count (source_of c) (selected (backfill free t)))%nat.
Proof.
  revert free. induction t as [|[c0 []] t IH]; intros free; cbn [backfill].
  - simpl. lia.
  - rewrite !selected_cons_true. cbn [length]. intros Hlt.
    destruct (IH free) as (c & Hc & Hcount); [lia|].
    exists c. split; [by right|]. rewrite !source_count_cons. lia.
  - destruct free as [|free].
    + rewrite backfill_zero. lia.
    + intros _. exists c0. split; [by left|].
      rewrite selected_cons_true, selected_cons_false, source_count_cons.
      pose proof (source_count_backfill_mono (source_of c0) free t).
      rewrite decide_True by done. lia.
Qed.

(** While slots are left, a candidate is left out only when its source has
    reached the cap. *)
Lemma diversity_pass_left_out m cs s (a : gmap string nat) c :
  (length (selected (diversity_pass m s a cs)) < s)%nat ->
  (c, false) ∈ diversity_pass m s a cs ->
  (m <= default 0 (a !! source_of c)
        + source_count (source_of c) (selected (diversity_pass m s a cs)))%nat.
Proof.
  revert s a. induction cs as [|c0 cs IH]; intros s a Hlen Hc;
    cbn [diversity_pass] in *.
  - by apply elem_of_nil in Hc.
  - destruct s as [|s]; [by apply Nat.nlt_0_r in Hlen|].
    case_decide as Hn.
    + rewrite selected_cons_true in *. cbn [length] in Hlen.
      apply elem_of_cons in Hc as [[=]|Hc].
      apply IH in Hc; [|lia].
      rewrite source_count_cons. rename Hc into IH'.
      destruct (decide (source_of c0 = source_of c)) as [He|Hne].
      * rewrite <- He, lookup_insert_eq in IH'. simpl in IH'.
        rewrite <- He. lia.
      * rewrite lookup_insert_ne in IH' by done. lia.
    + rewrite selected_cons_false in *.
      apply elem_of_cons in Hc as [[= ->]|Hc].
      * lia.
      * by apply IH.
Qed.

(** The report is not raised in vain: when [rerank] reports a diversity
    shortfall, some source document has more than max_per_source fragments in
    the result. *)
Lemma rerank_shortfall_means_excess
    (scored : list ScoredCandidate) (top_k max_per_source : nat) :
  DiversityShortfall ∈ (rerank scored top_k max_per_source).2 ->
  exists d : string,
    (max_per_source
     < source_count d (rerank scored top_k max_per_source).1)%nat.
Proof.
  unfold rerank.
  set (tagged := diversity_pass max_per_source top_k ∅ (sort_by_score scored)).
  case_decide as Hn; cbn [fst snd]; [|by intros ?%elem_of_nil].
  case_decide as Hf; [|by intros ?%elem_of_nil]. intros _.
  destruct (backfill_adds _ _ Hf) as (c & Hc & Hcount).
  exists (source_of c).
  pose proof (diversity_pass_left_out max_per_source (sort_by_score scored)
                top_k ∅ c Hn Hc) as Hfull.
  rewrite lookup_empty in Hfull. simpl in Hfull. fold tagged in Hfull. lia.
Qed.

End PipelineFacts.

Module RankingOrder.
Import Reranking.
Local Open Scope Q_scope.

Section SearchWithReranking.

Variable search : string -> Z -> list string.
Variable calculate_relevance_score : string -> string -> Q.

(** C2 (as the code has it). [search_with_reranking] orders the retrieved
    pool by relevance score, highest first, with a stable sort: among equal
    scores the earlier retrieved fragment stands first (the tie goes by the
    position in the pool, not by a fragment identifier). What it returns is
    the head of that order of the whole pool: the ranking followed by the
    positions left out is an arrangement of all positions of the pool in
    that order, so nothing left out outranks a ranked fragment; its length
    is the smaller of top_k and the pool's size (for a negative top_k, the
    pool's size less its amount); and the scores along it, each the
    relevance score of the chunk at that position, never increase. The
    function has no backfill pass. *)
Theorem ranking_scores_nonincreasing
    (query_text : string) (n_results final_top_k : Z) :
  let chunks := retrieved_chunks search query_text n_results in
  let scores :=
    relevance_scores calculate_relevance_score query_text chunks in
  let ranking :=
    search_with_reranking search calculate_relevance_score query_text
      n_results final_top_k in
  (forall (i : nat) (chunk : string),
      chunks !! i = Some chunk ->
      score_at scores i = calculate_relevance_score query_text chunk)
  /\ (exists rest : list nat,
         (ranking ++ rest)%list ≡ₚ range (length chunks)
         /\ StronglySorted (ranks_before (score_at scores))
              (ranking ++ rest)%list)
  /\ length ranking
     = (if (0 <=? final_top_k)%Z
        then Z.to_nat final_top_k `min` length chunks
        else Z.to_nat (Z.of_nat (length chunks) + final_top_k))
  /\ StronglySorted (fun a b : Q => b <= a) (score_at scores <$> ranking).
Proof.
  cbn zeta. unfold search_with_reranking.
  set (chunks := retrieved_chunks search query_text n_results).
  set (scores := relevance_scores calculate_relevance_score query_text chunks).
  assert (Hlen : length scores = length chunks)
    by apply RerankingFacts.relevance_scores_length.
  split; [|split; [|split]].
  - intros i chunk Hi. unfold score_at. apply nth_lookup_Some.
    unfold scores, relevance_scores.
    change (map ?f ?l) with (f <$> l).
    by rewrite list_lookup_fmap, Hi.
  - destruct (RerankingFacts.slice_to_prefix
                (sorted_reverse (score_at scores) (range (length scores)))
                final_top_k) as [n Hn].
    exists (drop n (sorted_reverse (score_at scores) (range (length scores)))).
    unfold top_indices. rewrite Hn, take_drop, <- Hlen. split.
    + apply RerankingFacts.sorted_reverse_Permutation.
    + apply RerankingFacts.sorted_reverse_sorted, RerankingFacts.range_sorted.
  - rewrite <- Hlen. destruct (Z.leb_spec 0 final_top_k) as [Hk|Hk].
    + by apply RerankingFacts.top_indices_length.
    + by apply RerankingFacts.top_indices_length_negative.
  - eapply StronglySorted_fmap;
      [|apply (RerankingFacts.top_indices_sorted scores final_top_k)].
    intros i j. apply RerankingFacts.ranks_before_score.
Qed.

End SearchWithReranking.

(** C2, as stated, fails on the tie-break: the same two fragments with the
    same score come out in the order they were retrieved in, whichever
    that is, so no order of fragment identifiers decides the tie. *)
Lemma ties_follow_retrieval_order :
  reranked_results RankingSamples.store_a Samples.length_score
    "waiting period" 15 5
  = [(0%nat, "waiting period 30 days", 22);
     (1%nat, "waiting period 90 days", 22)]
  /\ reranked_results RankingSamples.store_b Samples.length_score
       "waiting period" 15 5
     = [(0%nat, "waiting period 90 days", 22);
        (1%nat, "waiting period 30 days", 22)].
Proof. split; reflexivity. Qed.

End RankingOrder.

Module ExpansionFacts.
Import Pipeline PipelineFacts.
Local Open Scope Q_scope.

Section Collaborators.

Variable generate : string -> option string.
Variable structured_prompt : string -> string.
Variable parse_expansion : string -> option QueryExpansion.
Variable search : string -> nat -> option string -> option (list (string * Q)).
Variable corpus : list Fragment.
Variable signals : Query -> QueryExpansion -> Candidate
                   -> AdaptiveScoring.SubScores.

Lemma expand_degraded query :
  expansion_failed generate structured_prompt parse_expansion query ->
  expand generate structured_prompt parse_expansion query
  = degraded_expansion.
Proof.
  unfold expand. intros [->|(response & -> & ->)]; reflexivity.
Qed.

Lemma sub_queries_degraded query :
  sub_queries query degraded_expansion = [question query].
Proof. reflexivity. Qed.

(** With the degraded expansion the retriever issues one search, for the
    original question, with the whole candidate budget. *)
Lemma retrieve_degraded query candidate_limit :
  retrieve search corpus query degraded_expansion candidate_limit
  = fold_left (merge_hit corpus)
      (sub_query_hits search query candidate_limit (question query)) ∅.
Proof.
  unfold retrieve. rewrite sub_queries_degraded. cbn [length map concat].
  by rewrite Nat.div_1_r, app_nil_r.
Qed.

(** Every ranked candidate carries the composite score of its own
    sub-scores under the weights of the expansion's query type. *)
Lemma rank_with_composite query expansion candidate_limit top_k max_per_source c :
  c ∈ (rank_with search corpus signals query expansion
         candidate_limit top_k max_per_source).1 ->
  sub_scores c = signals query expansion (candidate c)
  /\ composite c
     = AdaptiveScoring.score (AdaptiveScoring.name (query_type expansion))
         (sub_scores c).
Proof.
  unfold rank_with. intros Hc%rerank_elem_of.
  apply list_elem_of_fmap in Hc as (c0 & -> & _). done.
Qed.

(** C6. When the generation collaborator fails or its output is malformed,
    [expand] returns the degraded expansion (query type general, no concept
    terms, no context hints, no hypothetical answers); the only sub-query is
    the original question, and the pipeline returns the ranking of that
    retrieval, every composite score being the general formula of the
    candidate's sub-scores. *)
Theorem expansion_failure_is_not_fatal
    (query : Query) (candidate_limit top_k max_per_source : nat) :
  expansion_failed generate structured_prompt parse_expansion query ->
  expand generate structured_prompt parse_expansion query
  = degraded_expansion
  /\ (query_type (expand generate structured_prompt parse_expansion query)
      = AdaptiveScoring.General
      /\ concept_terms (expand generate structured_prompt parse_expansion query)
         = []
      /\ context_hints (expand generate structured_prompt parse_expansion query)
         = []
      /\ hypothetical_answers
           (expand generate structured_prompt parse_expansion query)
         = [])
  /\ sub_queries query
       (expand generate structured_prompt parse_expansion query)
     = [question query]
  /\ pipeline generate structured_prompt parse_expansion search corpus signals
       query candidate_limit top_k max_per_source
     = (if String.eqb (question query) "" then ([], [])
        else rerank
               (map (score_candidate signals query degraded_expansion)
                  (map_to_list
                     (fold_left (merge_hit corpus)
                        (sub_query_hits search query candidate_limit
                           (question query)) ∅)).*2)
               top_k max_per_source)
  /\ (forall c : ScoredCandidate,
        c ∈ (pipeline generate structured_prompt parse_expansion search corpus
               signals query candidate_limit top_k max_per_source).1 ->
        composite c = AdaptiveScoring.score "general" (sub_scores c)).
Proof.
  intros Hfail. pose proof (expand_degraded query Hfail) as He.
  split; [done|]. split; [by rewrite He|]. split; [by rewrite He|].
  unfold pipeline. rewrite He. split.
  - destruct (String.eqb (question query) ""); [done|].
    unfold rank_with. by rewrite retrieve_degraded.
  - intros c. destruct (String.eqb (question query) ""); cbn [fst].
    + by intros ?%elem_of_nil.
    + intros Hc%rank_with_composite. by destruct Hc as [_ ->].
Qed.

End Collaborators.

Lemma expansion_failure_is_not_fatal_witness :
  expansion_failed Samples.failing_generate Samples.plain_prompt
    Samples.no_parse Samples.sample_query
  /\ expand Samples.failing_generate Samples.plain_prompt Samples.no_parse
       Samples.sample_query
     = degraded_expansion.
Proof.
  assert (H : expansion_failed Samples.failing_generate Samples.plain_prompt
                Samples.no_parse Samples.sample_query) by (left; reflexivity).
  split; [exact H|].
  exact (proj1 (expansion_failure_is_not_fatal Samples.failing_generate
                  Samples.plain_prompt Samples.no_parse Samples.sample_search
                  Samples.sample_corpus Samples.sample_signals
                  Samples.sample_query 50 7 3 H)).
Defined.

End ExpansionFacts.

Module RerankingWitness.
Import Reranking.

Lemma search_with_reranking_at_most_top_k_witness :
  (0 <= 2)%Z
  /\ (Z.of_nat
        (length (search_with_reranking Samples.three_chunks
                   Samples.length_score "what is a baby" 15 2))
      <= 2)%Z.
Proof.
  split; [lia|].
  apply (RerankingFacts.search_with_reranking_at_most_top_k
           Samples.three_chunks Samples.length_score "what is a baby" 15 2).
  lia.
Defined.

Example search_with_reranking_sample :
  search_with_reranking Samples.three_chunks Samples.length_score
    "what is a baby" 15 2 = [1; 0]%nat.
Proof. reflexivity. Qed.

(** C1, as stated for every configured top_k, fails: with a top_k of -1
    and a pool of three chunks the slice [[:final_top_k]] drops the last
    index of the ranking and keeps two, more than top_k. *)
Lemma search_with_reranking_exceeds_negative_top_k :
  search_with_reranking Samples.three_chunks Samples.length_score
    "what is a baby" 15 (-1) = [1; 0]%nat
  /\ ~ (Z.of_nat
          (length (search_with_reranking Samples.three_chunks
                     Samples.length_score "what is a baby" 15 (-1)))
        <= -1)%Z.
Proof.
  split; [reflexivity|].
  change (search_with_reranking Samples.three_chunks Samples.length_score
            "what is a baby" 15 (-1)) with [1; 0]%nat.
  simpl. lia.
Qed.

(** A negative top_k is a slice from the end: one index short of the pool,
    not an empty ranking. *)
Example top_indices_negative_top_k :
  top_indices [0.5; 0.9; 0.1]%Q (-1) = [1; 0]%nat.
Proof. reflexivity. Qed.

Lemma top_indices_length_negative_witness :
  (-1 < 0)%Z /\ length (top_indices [0.5; 0.9; 0.1]%Q (-1)) = 2%nat.
Proof.
  split; [lia|].
  rewrite (RerankingFacts.top_indices_length_negative
             [0.5; 0.9; 0.1]%Q (-1)) by lia.
  reflexivity.
Defined.

Lemma sorted_reverse_unique_witness :
  [1; 0; 2]%nat ≡ₚ range 3
  /\ [1; 0; 2]%nat
     = sorted_reverse (score_at [0.5; 0.9; 0.5]%Q) (range 3).
Proof.
  assert (Hp : [1; 0; 2]%nat ≡ₚ range 3) by apply perm_swap.
  split; [exact Hp|].
  apply (RerankingFacts.sorted_reverse_unique
           (score_at [0.5; 0.9; 0.5]%Q) 3 [1; 0; 2]%nat Hp).
  repeat first [apply SSorted_cons | apply SSorted_nil
                | apply List.Forall_cons | apply List.Forall_nil].
  - right. split; [reflexivity|lia].
  - left. reflexivity.
  - left. reflexivity.
Defined.

End RerankingWitness.

Module JsStrFacts.
Import JsStr.

Lemma slice_from_append (p s : string) :
  slice_from (String.length p) (p ++ s) = s.
Proof.
  induction p as [|c p IH]; [by destruct s|].
  rewrite PyStrFacts.append_cons. simpl. done.
Qed.

Lemma slice_from_split (k : nat) (s : string) :
  (k <= String.length s)%nat ->
  exists p : string, s = p ++ slice_from k s /\ String.length p = k.
Proof.
  revert s. induction k as [|k IH]; intros s Hk.
  - exists "". by destruct s.
  - destruct s as [|c s]; simpl in *; [lia|].
    destruct (IH s) as (p & Hp & Hl); [lia|].
    exists (String c p). rewrite PyStrFacts.append_cons. simpl.
    split; congruence.
Qed.

(** [endsWith s suffix]: [s] is some text followed by [suffix]. *)
Lemma endsWith_spec (s suffix : string) :
  endsWith s suffix = true <-> exists p : string, s = p ++ suffix.
Proof.
  unfold endsWith. rewrite andb_true_iff, Nat.leb_le, String.eqb_eq. split.
  - intros [Hle Hs].
    destruct (slice_from_split (String.length s - String.length suffix) s)
      as (p & Hp & _); [lia|].
    exists p. congruence.
  - intros [p ->]. rewrite PyStrFacts.length_append.
    replace (String.length p + String.length suffix - String.length suffix)%nat
      with (String.length p) by lia.
    split; [lia|apply slice_from_append].
Qed.

End JsStrFacts.

Module DocumentManagerFacts.
Import JsStr DocumentManager.

Lemma includes_spec (l : list string) (t : string) :
  includes l t = true <-> t ∈ l.
Proof.
  unfold includes. rewrite existsb_exists. split.
  - intros (x & Hx & ->%String.eqb_eq). by apply list_elem_of_In.
  - intros Ht. exists t. split; [by apply list_elem_of_In|].
    apply String.eqb_refl.
Qed.

Lemma type_ok_spec (file : File) :
  negb (includes validTypes (type file)) && negb (endsWith (name file) ".txt")
  = false
  <-> type_ok file.
Proof.
  unfold type_ok. rewrite <- includes_spec, <- JsStrFacts.endsWith_spec.
  destruct (includes validTypes (type file)),
           (endsWith (name file) ".txt"); simpl; intuition congruence.
Qed.

(** C9. A chosen file becomes the selected file exactly when its type is
    one of the three accepted MIME types or its name ends in ".txt", and
    its size is at most 52428800 bytes; then the error message is cleared.
    A file that fails a check leaves the selected file (and every other
    cell but the error) as it was and sets one of the two error messages. *)
Theorem handleFileSelect_accepts_only_valid (file : File) (st : State) :
  (type_ok file /\ size_ok file ->
   handleFileSelect (Some file) st
   = mkState (documents st) (loading st) (uploading st) "" (success st)
       (Some file))
  /\ (~ (type_ok file /\ size_ok file) ->
      selectedFile (handleFileSelect (Some file) st) = selectedFile st
      /\ (error (handleFileSelect (Some file) st) = invalid_type_message
          \/ error (handleFileSelect (Some file) st) = too_large_message)
      /\ handleFileSelect (Some file) st
         = setError (error (handleFileSelect (Some file) st)) st).
Proof.
  unfold handleFileSelect, size_ok.
  destruct (negb (includes validTypes (type file))
            && negb (endsWith (name file) ".txt")) eqn:Ht.
  - assert (~ type_ok file) as Hno.
    { intros H%type_ok_spec. congruence. }
    split; [tauto|]. intros _. simpl. auto.
  - apply type_ok_spec in Ht.
    destruct (Z.ltb_spec 52428800 (size file)) as [Hbig|Hsmall].
    + split; [intros [_ ?]; lia|]. intros _. simpl. auto.
    + split; [reflexivity|]. tauto.
Qed.

(** With no file chosen nothing changes. *)
Lemma handleFileSelect_none (st : State) : handleFileSelect None st = st.
Proof. reflexivity. Qed.

Example handleFileSelect_pdf :
  selectedFile (handleFileSelect (Some Samples.pdf_file) Samples.manager_state)
  = Some Samples.pdf_file.
Proof. reflexivity. Qed.

Example handleFileSelect_txt_by_name :
  selectedFile
    (handleFileSelect (Some Samples.notes_file) Samples.manager_state)
  = Some Samples.notes_file.
Proof. reflexivity. Qed.

Example handleFileSelect_image_refused :
  handleFileSelect (Some Samples.image_file) Samples.manager_state
  = setError invalid_type_message Samples.manager_state.
Proof. reflexivity. Qed.

Example handleFileSelect_one_byte_over :
  handleFileSelect (Some Samples.huge_file) Samples.manager_state
  = setError too_large_message Samples.manager_state.
Proof. reflexivity. Qed.

End DocumentManagerFacts.

Module ChatFacts.
Import JsStr Chat.

Lemma trim_start_keeps_text (s : string) :
  all_whitespace s = false ->
  exists (c : ascii) (t : string),
    trim_start s = String c t /\ is_whitespace c = false.
Proof.
  induction s as [|c s IH]; simpl; [done|].
  destruct (is_whitespace c) eqn:Hc; simpl; eauto.
Qed.

Lemma trim_start_ends_in_text (u : string) (c : ascii) :
  is_whitespace c = false -> trim_start (u ++ String c "") <> "".
Proof.
  intros Hc. induction u as [|a u IH]; simpl.
  - by rewrite Hc.
  - by destruct (is_whitespace a).
Qed.

(** [trim] leaves something of a string that is not all white space. *)
Lemma trim_keeps_text (s : string) :
  all_whitespace s = false -> trim s <> "".
Proof.
  intros (c & t & Hs & Hc)%trim_start_keeps_text. unfold trim.
  rewrite Hs. cbn [PyStr.rev].
  by apply PyStrFacts.rev_nonempty, trim_start_ends_in_text.
Qed.

Lemma trim_start_all_whitespace (s : string) :
  all_whitespace s = true -> trim_start s = "".
Proof.
  induction s as [|c s IH]; simpl; [done|].
  intros [-> Hs]%andb_true_iff. by apply IH.
Qed.

Lemma trim_all_whitespace (s : string) :
  all_whitespace s = true -> trim s = "".
Proof.
  intros Hs. unfold trim. rewrite (trim_start_all_whitespace s Hs).
  reflexivity.
Qed.

Section Network.

Variable fetch : string -> string -> string -> option (list string * bool).
Variable JSON_parse : string -> option Data.

(** C10. For a query that is empty or all white space, [handleQuery] only
    prevents the event's default action: it sends no request and leaves the
    state, so the messages, the query text and the loading flag, as it
    was. *)
Theorem handleQuery_blank_is_noop (token : string) (st : State) :
  all_whitespace (query st) = true ->
  handleQuery fetch JSON_parse token st = (st, [PreventDefault])
  /\ existsb is_fetch (handleQuery fetch JSON_parse token st).2 = false
  /\ messages (handleQuery fetch JSON_parse token st).1 = messages st
  /\ query (handleQuery fetch JSON_parse token st).1 = query st
  /\ loading (handleQuery fetch JSON_parse token st).1 = loading st.
Proof.
  intros Hblank.
  assert (H : handleQuery fetch JSON_parse token st = (st, [PreventDefault])).
  { unfold handleQuery. by rewrite trim_all_whitespace. }
  rewrite H. done.
Qed.

Lemma handle_line_frame acc line acc' :
  handle_line JSON_parse acc line = Some acc' ->
  query acc'.2 = query acc.2 /\ loading acc'.2 = loading acc.2.
Proof.
  unfold handle_line. intros H.
  repeat case_match; simplify_eq; done.
Qed.

Lemma handle_lines_frame lines acc :
  query (handle_lines JSON_parse acc lines).1.2 = query acc.2
  /\ loading (handle_lines JSON_parse acc lines).1.2 = loading acc.2.
Proof.
  revert acc. induction lines as [|line lines IH]; intros acc; simpl; [done|].
  destruct (handle_line JSON_parse acc line) as [acc'|] eqn:Hl; [|done].
  apply handle_line_frame in Hl as [<- <-]. apply IH.
Qed.

Lemma handle_chunks_frame chunks acc :
  query (handle_chunks JSON_parse acc chunks).1.2 = query acc.2
  /\ loading (handle_chunks JSON_parse acc chunks).1.2 = loading acc.2.
Proof.
  revert acc. induction chunks as [|chunk chunks IH]; intros acc; simpl;
    [done|].
  pose proof (handle_lines_frame (split_lines chunk) acc) as Hf.
  destruct (handle_lines JSON_parse acc (split_lines chunk)) as [acc' []].
  - simpl in Hf. destruct Hf as [<- <-]. apply IH.
  - done.
Qed.

(** A query with text in it is sent: one request carrying the query as
    typed, after which the input is empty and the loading flag is down. *)
Lemma handleQuery_sends_request (token : string) (st : State) :
  all_whitespace (query st) = false ->
  (handleQuery fetch JSON_parse token st).2
  = [PreventDefault;
     Fetch "http://localhost:8000/api/v1/chat/query" token (query st)]
  /\ query (handleQuery fetch JSON_parse token st).1 = ""
  /\ loading (handleQuery fetch JSON_parse token st).1 = false.
Proof.
  intros Htext%trim_keeps_text. unfold handleQuery, truthy.
  destruct (String.eqb_spec (trim (query st)) "") as [He|_]; [done|].
  cbn [negb snd fst]. split; [done|].
  destruct (fetch _ token (query st)) as [[chunks ended]|]; [|done].
  match goal with
  | |- context [handle_chunks JSON_parse ?a chunks] =>
      pose proof (handle_chunks_frame chunks a) as [Hq Hl];
      destruct (handle_chunks JSON_parse a chunks) as [acc ok]
  end.
  simpl in Hq, Hl. destruct ok, ended; simpl; done.
Qed.

End Network.

Lemma handleQuery_blank_is_noop_witness :
  all_whitespace (query Samples.blank_state) = true
  /\ handleQuery Samples.sample_fetch Samples.sample_parse "jwt"
       Samples.blank_state
     = (Samples.blank_state, [PreventDefault]).
Proof.
  split; [reflexivity|].
  apply (handleQuery_blank_is_noop Samples.sample_fetch Samples.sample_parse
           "jwt" Samples.blank_state).
  reflexivity.
Defined.

Lemma handleQuery_sends_request_witness :
  all_whitespace (query Samples.asking_state) = false
  /\ query (handleQuery Samples.sample_fetch Samples.sample_parse "jwt"
              Samples.asking_state).1 = "".
Proof.
  split; [reflexivity|].
  apply (handleQuery_sends_request Samples.sample_fetch Samples.sample_parse
           "jwt" Samples.asking_state).
  reflexivity.
Defined.

(** A query with text does send the request. *)
Example handleQuery_sends :
  (handleQuery Samples.sample_fetch Samples.sample_parse "jwt"
     Samples.asking_state).2
  = [PreventDefault;
     Fetch "http://localhost:8000/api/v1/chat/query" "jwt" "What is covered?"].
Proof. reflexivity. Qed.

End ChatFacts.

Module LexicalScorerFacts.
Import PyStr PyStrFacts LexicalScorer.
Local Open Scope Q_scope.

(** A zero numerator gives the component 0, whether the division goes
    through or raises. *)
Lemma neutral_div_zero (a b : Q) : a == 0 -> neutral (div a b) == 0.
Proof.
  intros Ha. unfold neutral, div.
  destruct (Qeq_bool b 0); simpl; [reflexivity|].
  rewrite Ha. unfold Qdiv. ring.
Qed.

Lemma flush_nonempty (cur w : string) : w ∈ flush cur -> w <> "".
Proof.
  destruct cur as [|c cur]; simpl; [by intros ?%elem_of_nil|].
  intros ->%list_elem_of_singleton. apply append_nonempty.
Qed.

Lemma words_aux_nonempty (s cur w : string) : w ∈ words_aux cur s -> w <> "".
Proof.
  revert cur. induction s as [|c s IH]; intros cur; simpl.
  - apply flush_nonempty.
  - destruct (is_word_char c); [apply IH|].
    intros [Hw|Hw]%elem_of_app; [by eapply flush_nonempty|by eapply IH].
Qed.

Lemma words_nonempty (s w : string) : w ∈ words s -> w <> "".
Proof. apply words_aux_nonempty. Qed.

Lemma bigrams_nonempty (ws : list string) (b : string) :
  b ∈ bigrams ws -> b <> "".
Proof.
  induction ws as [|a [|c rest] IH]; cbn [bigrams];
    [by intros ?%elem_of_nil..|].
  intros [->|Hb]%elem_of_cons; [apply append_nonempty|by apply IH].
Qed.

(** Only the empty string occurs in the empty string. *)
Lemma contains_in_empty (w : string) : w <> "" -> contains w "" = false.
Proof. destruct w; [done|reflexivity]. Qed.

Lemma filter_none {A : Type} (P : A -> Prop) `{!forall x, Decision (P x)}
    (l : list A) :
  (forall x, x ∈ l -> ~ P x) -> filter P l = [].
Proof.
  induction l as [|x l IH]; intros Hall; [done|].
  rewrite filter_cons_False by (apply Hall; left).
  apply IH. intros y Hy. apply Hall. by right.
Qed.

Lemma lcs_nil_r (a : list ascii) : lcs a [] = 0%nat.
Proof. by destruct a. Qed.

Lemma sum_results_zero (l : list (option Q)) :
  Forall (fun r => r = Some 0) l ->
  exists total : Q, sum_results l = Some total /\ total == 0.
Proof.
  induction 1 as [|r l Hr _ (total & Hsum & Ht)]; simpl.
  - by exists 0.
  - exists (0 + total). rewrite Hr, Hsum. split; [done|]. rewrite Ht. ring.
Qed.

Section Scorer.

Variable stop_words : list string.
Variable corpus_size : nat.
Variable term_doc_frequency : string -> nat.
Variable log1p : Q -> Q.
Variable k : Q.
Variable fuzzy_limit : nat.

Lemma tokens_empty : tokens stop_words "" = [].
Proof. reflexivity. Qed.

Lemma tokens_nonempty (text w : string) :
  w ∈ tokens stop_words text -> w <> "".
Proof.
  unfold tokens. intros [_ Hw]%list_elem_of_filter.
  by eapply words_nonempty.
Qed.

Lemma token_set_empty : token_set stop_words "" = ∅.
Proof. reflexivity. Qed.

Lemma token_overlap_empty (query text : string) :
  query = "" \/ text = "" -> token_overlap stop_words query text == 0.
Proof.
  intros Hempty. unfold token_overlap, raw_token_overlap.
  apply neutral_div_zero.
  assert (token_set stop_words query ∩ token_set stop_words text = ∅) as ->.
  { destruct Hempty as [Hq|Ht]; [rewrite Hq|rewrite Ht];
      rewrite token_set_empty;
      [apply intersection_empty_l_L|apply intersection_empty_r_L]. }
  reflexivity.
Qed.

Lemma rarity_match_empty (query text : string) :
  query = "" \/ text = "" ->
  rarity_match stop_words corpus_size term_doc_frequency log1p k query text
  == 0.
Proof.
  intros H. unfold rarity_match, raw_rarity_match.
  destruct (sum_results_zero
    (map (fun t => term_contribution corpus_size term_doc_frequency log1p k t
                     (tokens stop_words text))
         (tokens stop_words query))) as (total & -> & Ht).
  { apply Forall_forall. intros r Hr.
    apply list_elem_of_fmap in Hr as (t & -> & Ht).
    destruct H as [-> | ->].
    - rewrite tokens_empty in Ht. by apply elem_of_nil in Ht.
    - rewrite tokens_empty. reflexivity. }
  simpl. by apply neutral_div_zero.
Qed.

Lemma ngram_match_empty (query text : string) :
  query = "" \/ text = "" -> ngram_match query text == 0.
Proof.
  intros H. unfold ngram_match, raw_ngram_match.
  apply neutral_div_zero.
  rewrite filter_none; [reflexivity|].
  intros b Hb. destruct H as [-> | ->].
  - by apply elem_of_nil in Hb.
  - apply bigrams_nonempty in Hb. cbn [lower].
    rewrite contains_in_empty by done. done.
Qed.

Lemma query_coverage_empty (query text : string) :
  query = "" \/ text = "" -> query_coverage stop_words query text == 0.
Proof.
  intros H. unfold query_coverage, raw_query_coverage.
  apply neutral_div_zero.
  rewrite filter_none; [reflexivity|].
  intros t Ht. destruct H as [-> | ->].
  - rewrite token_set_empty, elements_empty in Ht.
    by apply elem_of_nil in Ht.
  - apply elem_of_elements, elem_of_list_to_set, tokens_nonempty in Ht.
    cbn [lower]. rewrite contains_in_empty by done. done.
Qed.

Lemma fuzzy_similarity_empty (query text : string) :
  query = "" \/ text = "" -> fuzzy_similarity fuzzy_limit query text == 0.
Proof.
  intros H. unfold fuzzy_similarity, raw_fuzzy_similarity.
  apply neutral_div_zero.
  destruct H as [-> | ->]; simpl.
  - reflexivity.
  - rewrite take_nil, lcs_nil_r. reflexivity.
Qed.

(** C8. With an empty query, and with an empty fragment text, each of the
    five lexical components is exactly 0; and for every input a component
    is a number: where its formula raises (a division by zero), the
    component is the neutral value 0. *)
Theorem lexical_components_empty_input :
  (forall query text : string,
     query = "" \/ text = "" ->
     token_overlap stop_words query text == 0
     /\ rarity_match stop_words corpus_size term_doc_frequency log1p k
          query text == 0
     /\ ngram_match query text == 0
     /\ query_coverage stop_words query text == 0
     /\ fuzzy_similarity fuzzy_limit query text == 0)
  /\ (forall query text : string,
        (raw_token_overlap stop_words query text = None ->
         token_overlap stop_words query text = 0)
        /\ (raw_rarity_match stop_words corpus_size term_doc_frequency log1p k
              query text = None ->
            rarity_match stop_words corpus_size term_doc_frequency log1p k
              query text = 0)
        /\ (raw_ngram_match query text = None -> ngram_match query text = 0)
        /\ (raw_query_coverage stop_words query text = None ->
            query_coverage stop_words query text = 0)
        /\ (raw_fuzzy_similarity fuzzy_limit query text = None ->
            fuzzy_similarity fuzzy_limit query text = 0)).
Proof.
  split.
  - intros query text Hempty.
    split; [by apply token_overlap_empty|].
    split; [by apply rarity_match_empty|].
    split; [by apply ngram_match_empty|].
    split; [by apply query_coverage_empty|by apply fuzzy_similarity_empty].
  - intros query text.
    unfold token_overlap, rarity_match, ngram_match, query_coverage,
      fuzzy_similarity.
    repeat split; intros ->; reflexivity.
Qed.

End Scorer.

Example lexical_components_sample :
  Qred (overlap (Samples.sample_components "new born baby"
                   "A New Born Baby is a baby")) = 1
  /\ Qred (ngram (Samples.sample_components "new born baby"
                    "A New Born Baby is a baby")) = 1
  /\ Qred (fuzzy (Samples.sample_components "new born baby"
                    "A New Born Baby is a baby")) = 13 # 19.
Proof. vm_compute. done. Qed.

(** A query of stop words only: the Jaccard formula divides by zero, and the
    component is 0. *)
Example token_overlap_stop_words_only :
  raw_token_overlap ["the"; "a"; "is"] "the" "a" = None
  /\ overlap (Samples.sample_components "the" "a") = 0.
Proof. vm_compute. done. Qed.

End LexicalScorerFacts.

Module PipelineInvariants.
Import Pipeline PipelineFacts.
Local Open Scope Q_scope.

Lemma id_le_antisym a b : id_le a b = true -> id_le b a = true -> a = b.
Proof.
  rewrite !id_le_spec. intros [->|Hab] [Hba|Hba]; try done.
  exfalso. eapply String_as_OT.lt_not_eq; [eapply String_as_OT.lt_trans|];
    eauto. reflexivity.
Qed.

Lemma ranks_first_antisym c d :
  ranks_first c d = true -> ranks_first d c = true ->
  fragment_id c = fragment_id d.
Proof.
  rewrite !ranks_first_spec. intros [Hcd|[Hcd Hi]] [Hdc|[Hdc Hj]].
  - exfalso. eapply Qlt_irrefl, Qlt_trans; eauto.
  - rewrite Hdc in Hcd. by apply Qlt_irrefl in Hcd.
  - rewrite Hcd in Hdc. by apply Qlt_irrefl in Hdc.
  - by apply id_le_antisym.
Qed.

Lemma NoDup_fmap_eq {A B : Type} (f : A -> B) (l : list A) (x y : A) :
  NoDup (f <$> l) -> x ∈ l -> y ∈ l -> f x = f y -> x = y.
Proof.
  induction l as [|z l IH]; intros Hnd Hx Hy Hf; [by apply elem_of_nil in Hx|].
  rewrite fmap_cons in Hnd. apply NoDup_cons in Hnd as [Hz Hnd].
  apply elem_of_cons in Hx as [->|Hx]; apply elem_of_cons in Hy as [->|Hy].
  - done.
  - exfalso. apply Hz. rewrite Hf. by apply list_elem_of_fmap_2.
  - exfalso. apply Hz. rewrite <- Hf. by apply list_elem_of_fmap_2.
  - by apply IH.
Qed.

(** With distinct fragment identifiers the sorted order of a pool does not
    depend on the order in which the pool lists its candidates. *)
Lemma sort_by_score_order_independent (l1 l2 : list ScoredCandidate) :
  NoDup (fragment_id <$> l1) -> l1 ≡ₚ l2 ->
  sort_by_score l1 = sort_by_score l2.
Proof.
  intros Hnd Hp.
  apply (StronglySorted_unique_strong (fun c d => ranks_first c d = true)).
  - intros c d Hc Hd Hcd Hdc.
    rewrite sort_by_score_Permutation in Hc.
    rewrite sort_by_score_Permutation, <- Hp in Hd.
    eapply NoDup_fmap_eq; eauto using ranks_first_antisym.
  - apply sort_by_score_sorted.
  - apply sort_by_score_sorted.
  - by rewrite !sort_by_score_Permutation.
Qed.

(** So the reranker is a function of the pool as a set of candidates. *)
Lemma rerank_order_independent (l1 l2 : list ScoredCandidate)
    (top_k max_per_source : nat) :
  NoDup (fragment_id <$> l1) -> l1 ≡ₚ l2 ->
  rerank l1 top_k max_per_source = rerank l2 top_k max_per_source.
Proof.
  intros Hnd Hp. unfold rerank.
  by rewrite (sort_by_score_order_independent l1 l2 Hnd Hp).
Qed.

Section Collaborators.

Variable generate : string -> option string.
Variable structured_prompt : string -> string.
Variable parse_expansion : string -> option QueryExpansion.
Variable search : string -> nat -> option string -> option (list (string * Q)).
Variable corpus : list Fragment.
Variable signals : Query -> QueryExpansion -> Candidate
                   -> AdaptiveScoring.SubScores.

Lemma lookup_fragment_identifier id f :
  lookup_fragment corpus id = Some f -> identifier f = id.
Proof.
  unfold lookup_fragment. intros [_ H]%find_some. by apply String.eqb_eq.
Qed.

Lemma merge_hit_keyed pool hit :
  keyed_by_identifier pool -> keyed_by_identifier (merge_hit corpus pool hit).
Proof.
  intros Hk id c. unfold merge_hit.
  destruct (pool !! hit.1) as [c0|] eqn:Hc0.
  - destruct (decide (hit.1 = id)) as [<-|Hne].
    + rewrite lookup_insert_eq. intros [= <-]. simpl. by apply Hk.
    + rewrite lookup_insert_ne by done. apply Hk.
  - destruct (lookup_fragment corpus hit.1) as [f|] eqn:Hf; [|apply Hk].
    destruct (decide (hit.1 = id)) as [<-|Hne].
    + rewrite lookup_insert_eq. intros [= <-]. simpl.
      by apply lookup_fragment_identifier.
    + rewrite lookup_insert_ne by done. apply Hk.
Qed.

Lemma fold_merge_hit_keyed hits pool :
  keyed_by_identifier pool ->
  keyed_by_identifier (fold_left (merge_hit corpus) hits pool).
Proof.
  revert pool. induction hits as [|hit hits IH]; intros pool Hk; simpl;
    [done|].
  by apply IH, merge_hit_keyed.
Qed.

Lemma retrieve_keyed query expansion candidate_limit :
  keyed_by_identifier (retrieve search corpus query expansion candidate_limit).
Proof.
  unfold retrieve. apply fold_merge_hit_keyed.
  intros id c. by rewrite lookup_empty.
Qed.

(** The scored pool handed to the reranker has no two candidates with the
    same fragment identifier. *)
Lemma scored_pool_NoDup query expansion candidate_limit :
  NoDup (fragment_id
           <$> map (score_candidate signals query expansion)
                 (map_to_list
                    (retrieve search corpus query expansion
                       candidate_limit)).*2).
Proof.
  pose proof (retrieve_keyed query expansion candidate_limit) as Hk.
  set (m := retrieve search corpus query expansion candidate_limit) in *.
  assert (Hids : fragment_id
                   <$> map (score_candidate signals query expansion)
                         (map_to_list m).*2
                 = (map_to_list m).*1).
  { rewrite <- !list_fmap_compose. apply Forall_fmap_ext, Forall_forall.
    intros [id c] Hc%elem_of_map_to_list. simpl.
    unfold fragment_id. simpl. by apply Hk. }
  rewrite Hids. apply NoDup_fst_map_to_list.
Qed.

(** The ranked result of the modelled pipeline: at most top_k fragments, no
    fragment identifier twice. *)
Lemma pipeline_result_bounded query candidate_limit top_k max_per_source :
  (length (pipeline generate structured_prompt parse_expansion search corpus
             signals query candidate_limit top_k max_per_source).1
   <= top_k)%nat
  /\ NoDup (fragment_id
              <$> (pipeline generate structured_prompt parse_expansion search
                     corpus signals query candidate_limit top_k
                     max_per_source).1).
Proof.
  unfold pipeline. destruct (String.eqb (question query) ""); cbn [fst].
  - split; [simpl; lia|constructor].
  - unfold rank_with. split.
    + rewrite rerank_length. lia.
    + apply rerank_NoDup, scored_pool_NoDup.
Qed.

End Collaborators.

End PipelineInvariants.

Module RagNotesFacts.
Import PyStr PyStrFacts RagNotes.

Lemma append_assoc (a b c : string) : (a ++ b) ++ c = a ++ b ++ c.
Proof.
  induction a as [|x a IH]; [done|]. rewrite !append_cons. by rewrite IH.
Qed.

Lemma append_nil_r (a : string) : a ++ "" = a.
Proof. induction a as [|x a IH]; [done|]. rewrite append_cons. by rewrite IH. Qed.

Lemma append_eq_self (a b : string) : a ++ b = a -> b = "".
Proof.
  intros H. rewrite <- (append_nil_r a) in H at 2.
  by apply String.app_inj in H.
Qed.

Lemma join_cons sep x (l : list string) :
  l <> [] -> join sep (x :: l) = x ++ sep ++ join sep l.
Proof. by destruct l. Qed.

Lemma join_snoc sep (l : list string) x :
  l <> [] -> join sep (l ++ [x]) = join sep l ++ sep ++ x.
Proof.
  induction l as [|y l IH]; [done|]. intros _.
  destruct l as [|z l]; [done|].
  change ((y :: z :: l) ++ [x])%list with (y :: ((z :: l) ++ [x]))%list.
  rewrite join_cons by done. rewrite IH by done.
  rewrite (join_cons sep y (z :: l)) by done.
  by rewrite !append_assoc.
Qed.

Lemma join_snoc_append sep (l : list string) x y :
  join sep (l ++ [x ++ y]) = join sep (l ++ [x]) ++ y.
Proof.
  destruct (decide (l = [])) as [->|Hl]; [done|].
  rewrite !join_snoc by done. by rewrite !append_assoc.
Qed.

(** *** [expand_query] *)

Lemma fold_expand (query : string) (table : list (string * list string))
    (acc : string) :
  fold_left
    (fun expanded '(term, synonyms) =>
       if contains (lower term) (lower query)
       then expanded ++ " " ++ join " OR " synonyms
       else expanded) table acc
  = acc ++ join ""
             (map synonym_clause
                (List.filter
                   (fun entry => contains (lower (fst entry)) (lower query))
                   table)).
Proof.
  revert acc. induction table as [|[term synonyms] table IH]; intros acc;
    simpl.
  - by rewrite append_nil_r.
  - rewrite IH. destruct (contains (lower term) (lower query)); [|done].
    simpl. rewrite append_assoc. f_equal.
    destruct (map synonym_clause _) as [|c l] eqn:E; simpl.
    + unfold synonym_clause. simpl. by rewrite append_nil_r.
    + unfold synonym_clause. simpl. done.
Qed.

Lemma join_clauses_empty (l : list (string * list string)) :
  join "" (map synonym_clause l) = "" -> l = [].
Proof.
  destruct l as [|e l]; [done|]. simpl.
  destruct (map synonym_clause l); unfold synonym_clause; discriminate.
Qed.

(** [expand_query] never touches the text of the query: it returns the query
    followed, for each term of the synonym table that occurs in it (whatever
    the case), by a space and the term's synonyms joined by " OR ", in the
    order of the table. It returns the query unchanged exactly when no term
    of the table occurs in it. *)
Theorem expand_query_appends (query : string) :
  Reranking.expand_query query
  = query ++ join "" (map synonym_clause (matching_synonyms query))
  /\ (Reranking.expand_query query = query <-> matching_synonyms query = []).
Proof.
  assert (H : Reranking.expand_query query
              = query ++ join "" (map synonym_clause (matching_synonyms query)))
    by apply fold_expand.
  split; [exact H|]. rewrite H. split.
  - intros He%append_eq_self. by apply join_clauses_empty.
  - intros ->. apply append_nil_r.
Qed.

(** *** [intent_based_search] *)

Section IntentBasedSearch.

Variable Result : Type.
Variable search : string -> Z -> list string -> Result.

(** [intent_based_search] searches only for the intents definition (10
    results, boosting the definitions sections) and coverage_check (15
    results, boosting benefits and exclusions); for every query classified
    amount_query or general it returns [None] without searching. *)
Theorem intent_based_search_only_two_intents (query : string) :
  (Intent.classify_query_intent query = "definition" ->
   intent_based_search Result search query
   = Some (search query 10 ["definitions"]))
  /\ (Intent.classify_query_intent query = "coverage_check" ->
      intent_based_search Result search query
      = Some (search query 15 ["benefits"; "exclusions"]))
  /\ (intent_based_search Result search query = None
      <-> Intent.classify_query_intent query = "amount_query"
          \/ Intent.classify_query_intent query = "general").
Proof.
  unfold intent_based_search, Intent.classify_query_intent.
  repeat case_match; simplify_eq; simpl in *;
    (split; [done|split; [done|]]); split; try done; intuition discriminate.
Qed.

End IntentBasedSearch.

(** *** [semantic_chunk_text] *)

Lemma split_sentences_aux_nonempty (s cur : string) :
  split_sentences_aux cur s <> [].
Proof.
  revert cur. induction s as [|c s IH]; intros cur; simpl; [done|].
  destruct s as [|d s]; [done|].
  destruct (Ascii.eqb c "." && Ascii.eqb d " "); [done|apply IH].
Qed.

Lemma join_split_sentences_aux (n : nat) (s cur : string) :
  (String.length s <= n)%nat ->
  join ". " (split_sentences_aux cur s) = rev cur ++ s.
Proof.
  revert s cur. induction n as [|n IH]; intros s cur Hn.
  - destruct s; [|simpl in Hn; lia]. simpl. by rewrite append_nil_r.
  - destruct s as [|c s]; [simpl; by rewrite append_nil_r|].
    simpl in Hn. cbn [split_sentences_aux].
    destruct s as [|d s].
    + done.
    + destruct (Ascii.eqb c "." && Ascii.eqb d " ") eqn:E.
      * apply andb_true_iff in E as [->%Ascii.eqb_eq ->%Ascii.eqb_eq].
        rewrite join_cons by apply split_sentences_aux_nonempty.
        rewrite IH by (simpl in *; lia). done.
      * rewrite IH by lia. cbn [rev]. by rewrite append_assoc.
Qed.

(** [text.split('. ')] followed by ['. '.join] gives the text back. *)
Lemma join_split_sentences (text : string) :
  join ". " (split_sentences text) = text.
Proof. by apply (join_split_sentences_aux (String.length text)). Qed.

Section SemanticChunking.

Variable Embedding : Type.
Variable encode : string -> option Embedding.
Variable cosine_similarity : option Embedding -> option Embedding -> Q.

Lemma snoc_nonempty {A : Type} (l : list A) (x : A) : (l ++ [x])%list <> [].
Proof. by destruct l. Qed.

Lemma chunk_step_invariant st seen sentence :
  encodes Embedding encode sentence = true ->
  chunk_invariant st seen ->
  chunk_invariant (chunk_step Embedding encode cosine_similarity st sentence)
    (seen ++ [sentence]).
Proof.
  unfold chunk_invariant, chunk_step, encodes. intros Henc [Hseen Hlong].
  destruct (encode sentence) as [emb|]; [clear Henc|done].
  destruct (prev_embedding Embedding st) as [prev|].
  - destruct Hseen as [Hne Hjoin].
    destruct (negb _ && (300 <? _)%nat) eqn:E; cbn.
    + apply andb_true_iff in E as [_ Hlen%Nat.ltb_lt].
      split; [split|].
      * apply snoc_nonempty.
      * rewrite (join_snoc _ (_ ++ _)%list) by apply snoc_nonempty.
        rewrite (join_snoc _ seen) by done.
        by rewrite Hjoin.
      * apply Forall_app. split; [done|]. by constructor.
    + split; [split|done].
      * apply snoc_nonempty.
      * rewrite join_snoc_append, Hjoin.
        by rewrite join_snoc.
  - destruct Hseen as (-> & Hc & _). cbn. rewrite Hc. done.
Qed.

Lemma fold_chunk_step_invariant rest st seen :
  forallb (encodes Embedding encode) rest = true ->
  chunk_invariant st seen ->
  chunk_invariant
    (fold_left (chunk_step Embedding encode cosine_similarity) rest st)
    (seen ++ rest).
Proof.
  revert st seen.
  induction rest as [|sentence rest IH]; intros st seen Henc Hinv; simpl.
  - by rewrite app_nil_r.
  - simpl in Henc. apply andb_true_iff in Henc as [Hs Hrest].
    rewrite (cons_middle sentence seen rest), app_assoc.
    by apply IH, chunk_step_invariant.
Qed.

(** Without embeddings the loop keeps nothing but the sentence read last:
    while [prev_embedding] is [None] each sentence replaces the open
    chunk. *)
Lemma fold_chunk_step_silent rest st :
  (forall sentence, encode sentence = None) ->
  prev_embedding Embedding st = None ->
  let st' :=
    fold_left (chunk_step Embedding encode cosine_similarity) rest st in
  chunks Embedding st' = chunks Embedding st
  /\ current_chunk Embedding st'
     = default (current_chunk Embedding st) (last rest)
  /\ prev_embedding Embedding st' = None.
Proof.
  intros Hnone. revert st.
  induction rest as [|sentence rest IH]; intros st Hprev; [done|].
  cbn [fold_left]. cbn zeta.
  assert (Hstep : chunk_step Embedding encode cosine_similarity st sentence
                  = mkChunkState Embedding (chunks Embedding st) sentence None).
  { unfold chunk_step. by rewrite Hprev, Hnone. }
  rewrite Hstep.
  destruct (IH (mkChunkState Embedding (chunks Embedding st) sentence None)
              eq_refl) as (Hc & Hcur & Hp).
  split; [done|]. split; [|done].
  rewrite Hcur. cbn [current_chunk].
  destruct rest as [|next rest]; [done|].
  rewrite last_cons_cons.
  destruct (last (next :: rest)) eqn:Hlast; [done|].
  by apply last_None in Hlast.
Qed.

(** With a model that returns [None] for every sentence,
    [semantic_chunk_text] returns the last sentence alone, or nothing when
    that is empty. *)
Lemma semantic_chunk_text_without_embeddings (text : string) :
  (forall sentence, encode sentence = None) ->
  semantic_chunk_text Embedding encode cosine_similarity text
  = match last (split_sentences text) with
    | Some sentence => if String.eqb sentence "" then [] else [sentence]
    | None => []
    end.
Proof.
  intros Hnone. unfold semantic_chunk_text.
  destruct (fold_chunk_step_silent (split_sentences text)
              (mkChunkState Embedding [] "" None) Hnone eq_refl)
    as (Hc & Hcur & _).
  rewrite Hc, Hcur. cbn [chunks current_chunk].
  by destruct (last (split_sentences text)).
Qed.

(** No text is lost by [semantic_chunk_text] when the model gives an
    embedding for every sentence of the text: the chunks joined by ". " are
    the text, or the text without a final ". " (when the last sentence is
    empty and was split off); no chunk is empty; and every chunk but the last
    is longer than 300 characters. *)
Theorem semantic_chunk_text_keeps_text (text : string) :
  forallb (encodes Embedding encode) (split_sentences text) = true ->
  (join ". " (semantic_chunk_text Embedding encode cosine_similarity text)
   = text
   \/ join ". " (semantic_chunk_text Embedding encode cosine_similarity text)
      ++ ". " = text)
  /\ Forall (fun c => c <> "")
       (semantic_chunk_text Embedding encode cosine_similarity text)
  /\ (forall (i : nat) (c : string),
        semantic_chunk_text Embedding encode cosine_similarity text !! i
        = Some c ->
        (S i
         < length
             (semantic_chunk_text Embedding encode cosine_similarity text))%nat ->
        (300 < String.length c)%nat).
Proof.
  intros Henc. unfold semantic_chunk_text.
  pose proof (fold_chunk_step_invariant (split_sentences text)
                (mkChunkState Embedding [] "" None) [] Henc) as Hinv.
  rewrite app_nil_l in Hinv.
  set (st := fold_left _ _ _) in *.
  destruct Hinv as [Hseen Hlong]; [by repeat split|].
  assert (Hlong' : Forall (fun c => c <> "") (chunks Embedding st)).
  { eapply Forall_impl; [exact Hlong|]. intros c Hc ->. simpl in Hc. lia. }
  destruct (prev_embedding Embedding st) as [prev|].
  - destruct Hseen as [_ Hjoin]. rewrite join_split_sentences in Hjoin.
    destruct (String.eqb_spec (current_chunk Embedding st) "") as [He|Hne].
    + rewrite He in Hjoin. split; [|split; [done|]].
      * destruct (decide (chunks Embedding st = [])) as [Hc|Hc].
        -- left. rewrite Hc in *. by rewrite <- Hjoin.
        -- right. rewrite join_snoc in Hjoin by done.
           by rewrite append_nil_r in Hjoin.
      * intros i c Hi _. rewrite Forall_forall in Hlong.
        apply Hlong. by eapply list_elem_of_lookup_2.
    + split; [by left|]. split.
      * apply Forall_app. split; [done|]. by constructor.
      * intros i c Hi Hlt. rewrite length_app in Hlt. simpl in Hlt.
        rewrite lookup_app_l in Hi by lia.
        rewrite Forall_forall in Hlong.
        apply Hlong. by eapply list_elem_of_lookup_2.
  - destruct Hseen as (Hs & _ & _).
    by destruct (split_sentences_aux_nonempty text "").
Qed.

End SemanticChunking.

Lemma semantic_chunk_text_keeps_text_witness :
  forallb (encodes nat length_model) (split_sentences "A. B. C") = true
  /\ (join ". " (semantic_chunk_text nat length_model unlike "A. B. C")
      = "A. B. C"
      \/ join ". " (semantic_chunk_text nat length_model unlike "A. B. C")
         ++ ". " = "A. B. C").
Proof.
  split; [reflexivity|].
  apply (semantic_chunk_text_keeps_text nat length_model unlike "A. B. C").
  reflexivity.
Defined.

Lemma semantic_chunk_text_without_embeddings_witness :
  (forall sentence, silent_model sentence = None)
  /\ semantic_chunk_text nat silent_model unlike "A. B. C" = ["C"].
Proof.
  split; [reflexivity|].
  apply (semantic_chunk_text_without_embeddings nat silent_model unlike
           "A. B. C").
  reflexivity.
Defined.

(** With the model that returns [None], only the last sentence is left. *)
Example semantic_chunk_text_silent_model :
  semantic_chunk_text nat silent_model unlike "A. B. C" = ["C"].
Proof. reflexivity. Qed.

End RagNotesFacts.

Module DocumentManagerOpsFacts.
Import JsStr DocumentManager DocumentManagerOps.

Lemma or_default_nonempty (detail : option string) (fallback : string) :
  fallback <> "" -> or_default detail fallback <> "".
Proof.
  intros Hf. destruct detail as [d|]; simpl; [|done].
  by destruct (String.eqb_spec d "").
Qed.

Section Requests.

Variable list_documents : Outcome (option (list Document)).
Variable has_onDocumentsChange : bool.
Variable upload : File -> Outcome (string * string).
Variable delete_document : string -> Outcome unit.
Variable confirm : string -> bool.

(** The list stored after a refresh: the one received, or the old one when
    the request failed. *)
Lemma fetchDocuments_documents (st : State) :
  documents (fetchDocuments list_documents has_onDocumentsChange st).1
  = match list_documents with
    | Succeeded field => default [] field
    | Rejected _ => documents st
    end.
Proof. unfold fetchDocuments. by destruct list_documents. Qed.

(** A refresh leaves the upload flag, the success message and the selected
    file alone, and ends with the loading flag down. *)
Lemma fetchDocuments_frame (st : State) :
  let st' := (fetchDocuments list_documents has_onDocumentsChange st).1 in
  loading st' = false /\ uploading st' = uploading st
  /\ success st' = success st /\ selectedFile st' = selectedFile st.
Proof. unfold fetchDocuments. by destruct list_documents. Qed.

(** A refresh is one request for the list and nothing else on the wire; the
    parent hears of the list exactly when one arrived, and then it is the
    list stored. *)
Lemma fetchDocuments_effects (st : State) :
  let r := fetchDocuments list_documents has_onDocumentsChange st in
  List.filter is_list_request r.2 = [GetDocumentList]
  /\ List.filter is_upload r.2 = []
  /\ List.filter is_delete r.2 = []
  /\ forall docs, NotifyParent docs ∈ r.2 ->
       has_onDocumentsChange = true /\ docs = documents r.1
       /\ exists field, list_documents = Succeeded field.
Proof.
  unfold fetchDocuments.
  destruct list_documents as [field|detail], has_onDocumentsChange; simpl;
    (split; [done|]); (split; [done|]); (split; [done|]); intros docs Hin;
    repeat match goal with
    | H : _ ∈ _ :: _ |- _ => apply elem_of_cons in H as [H|H]; [try done|]
    | H : _ ∈ [] |- _ => by apply elem_of_nil in H
    end.
  injection Hin as ->. eauto.
Qed.

(** [handleUpload] sends the selected file, once, and only when there is
    one. A successful upload clears the selection, reports the file name
    and refreshes the list; a failed one keeps the selection and the list,
    shows a non-empty error and does not ask for the list. Either way the
    upload flag is down at the end. *)
Theorem handleUpload_outcome (st : State) :
  let r :=
    handleUpload list_documents has_onDocumentsChange upload st in
  match selectedFile st with
  | None => r = (setError "Please select a file first" st, [])
  | Some file =>
      uploading r.1 = false
      /\ List.filter is_upload r.2 = [PostUpload file]
      /\ List.filter is_delete r.2 = []
      /\ match upload file with
         | Succeeded (filename, chunks_created) =>
             selectedFile r.1 = None
             /\ success r.1
                = "Successfully uploaded " ++ filename ++ " ("
                  ++ chunks_created ++ " chunks created)"
             /\ List.filter is_list_request r.2 = [GetDocumentList]
             /\ documents r.1
                = match list_documents with
                  | Succeeded field => default [] field
                  | Rejected _ => documents st
                  end
         | Rejected detail =>
             selectedFile r.1 = Some file
             /\ documents r.1 = documents st
             /\ error r.1 <> ""
             /\ success r.1 = ""
             /\ List.filter is_list_request r.2 = []
         end
  end.
Proof.
  unfold handleUpload. destruct (selectedFile st) as [file|] eqn:Hsel; [|done].
  destruct (upload file) as [[filename chunks_created]|detail].
  - match goal with
    | |- context [fetchDocuments _ _ ?s] =>
        pose proof (fetchDocuments_frame s) as (_ & _ & Hsucc & Hfile);
        pose proof (fetchDocuments_effects s) as (Hlist & Hup & Hdel & _);
        pose proof (fetchDocuments_documents s) as Hdocs
    end.
    cbn [fst snd List.filter is_upload is_delete is_list_request].
    rewrite Hup, Hdel, Hlist.
    repeat split; try done; by rewrite <- ?Hsucc, <- ?Hdocs.
  - cbn [fst snd]. repeat split; try done.
    by apply or_default_nonempty.
Qed.

(** [handleDelete] asks first. Declined, nothing is sent and nothing
    changes. Confirmed, one delete request goes out for the document; on
    success the list is asked for again and the message names the file; on
    failure the list stays as shown, with a non-empty error, no success
    message and no refresh. *)
Theorem handleDelete_outcome (docId filename : string) (st : State) :
  let r :=
    handleDelete list_documents has_onDocumentsChange delete_document confirm
      docId filename st in
  List.filter is_upload r.2 = []
  /\ if confirm (delete_question filename) then
       List.filter is_delete r.2 = [DeleteDocument docId]
       /\ match delete_document docId with
          | Succeeded _ =>
              success r.1 = "Successfully deleted " ++ filename
              /\ List.filter is_list_request r.2 = [GetDocumentList]
              /\ documents r.1
                 = match list_documents with
                   | Succeeded field => default [] field
                   | Rejected _ => documents st
                   end
          | Rejected detail =>
              documents r.1 = documents st
              /\ error r.1 <> ""
              /\ success r.1 = ""
              /\ List.filter is_list_request r.2 = []
          end
     else r = (st, [Confirm (delete_question filename)]).
Proof.
  unfold handleDelete. destruct (confirm (delete_question filename)); [|done].
  cbn [negb]. destruct (delete_document docId) as [[]|detail].
  - match goal with
    | |- context [fetchDocuments _ _ ?s] =>
        pose proof (fetchDocuments_frame s) as (_ & _ & Hsucc & Hfile);
        pose proof (fetchDocuments_effects s) as (Hlist & Hup & Hdel & _);
        pose proof (fetchDocuments_documents s) as Hdocs
    end.
    cbn [fst snd List.filter is_upload is_delete is_list_request].
    rewrite Hup, Hdel, Hlist.
    repeat split; try done; by rewrite <- ?Hsucc, <- ?Hdocs.
  - cbn [fst snd]. repeat split; try done.
    by apply or_default_nonempty.
Qed.

(** After a delete that went through, the document is still listed when
    the refresh fails: the success message and the error of the refresh
    stand side by side. *)
Lemma handleDelete_stale_list (docId filename : string) (st : State)
    (detail : option string) :
  confirm (delete_question filename) = true ->
  delete_document docId = Succeeded tt ->
  list_documents = Rejected detail ->
  let r :=
    handleDelete list_documents has_onDocumentsChange delete_document confirm
      docId filename st in
  documents r.1 = documents st
  /\ success r.1 = "Successfully deleted " ++ filename
  /\ error r.1 = "Failed to load documents".
Proof.
  intros Hc Hd Hl. unfold handleDelete, fetchDocuments.
  by rewrite Hc, Hd, Hl.
Qed.

End Requests.

End DocumentManagerOpsFacts.

Module ChatStreamFacts.
Import JsStr Chat ChatStream.

Lemma concat_snoc (l : list string) (x : string) :
  String.concat "" (l ++ [x]) = String.concat "" l ++ x.
Proof.
  induction l as [|y l IH]; [done|].
  destruct l as [|z l]; [done|].
  change ((y :: z :: l) ++ [x])%list with (y :: ((z :: l) ++ [x]))%list.
  change (String.concat "" (y :: (z :: l) ++ [x]))
    with (y ++ "" ++ String.concat "" ((z :: l) ++ [x])).
  rewrite IH.
  change (String.concat "" (y :: z :: l))
    with (y ++ "" ++ String.concat "" (z :: l)).
  change ("" ++ ?a) with a.
  by rewrite RagNotesFacts.append_assoc.
Qed.

(** Showing the text so far after one more token. *)
Lemma show_response_answer (pre : list Message) (toks : list string)
    (tok : string) :
  (forall m, last pre = Some m -> role m <> "assistant") ->
  show_response (String.concat "" (toks ++ [tok])) (pre ++ answer_of toks)
  = (pre ++ answer_of (toks ++ [tok]))%list.
Proof.
  intros Hpre. unfold show_response.
  assert (answer_of (toks ++ [tok])
          = [mkMessage "assistant" (String.concat "" (toks ++ [tok]))])
    as -> by by destruct toks.
  destruct toks as [|t toks].
  - cbn [answer_of]. rewrite app_nil_r.
    destruct (last pre) as [m|] eqn:Hlast; [|done].
    specialize (Hpre m eq_refl).
    by destruct (String.eqb_spec (role m) "assistant").
  - cbn [answer_of]. rewrite last_snoc. cbn [role].
    change ("assistant" =? "assistant")%string with true. cbn iota.
    by rewrite removelast_last.
Qed.

Section Stream.

Variable fetch : string -> string -> string -> option (list string * bool).
Variable JSON_parse : string -> option Data.

Lemma handle_lines_app (l1 l2 : list string) (acc : string * State) :
  handle_lines JSON_parse acc (l1 ++ l2)
  = match handle_lines JSON_parse acc l1 with
    | (acc', true) => handle_lines JSON_parse acc' l2
    | (acc', false) => (acc', false)
    end.
Proof.
  revert acc. induction l1 as [|line l1 IH]; intros acc; simpl; [done|].
  destruct (handle_line JSON_parse acc line); [apply IH|done].
Qed.

(** Reading chunk by chunk is reading the lines of all chunks in a row. *)
Lemma handle_chunks_lines (chunks : list string) (acc : string * State) :
  handle_chunks JSON_parse acc chunks
  = handle_lines JSON_parse acc (stream_lines chunks).
Proof.
  revert acc. induction chunks as [|chunk chunks IH]; intros acc; [done|].
  unfold stream_lines. cbn [map concat handle_chunks].
  rewrite handle_lines_app.
  destruct (handle_lines JSON_parse acc (split_lines chunk)) as [acc' []];
    [apply IH|done].
Qed.

Lemma tokens_of_cons (line : string) (lines : list string) :
  tokens_of JSON_parse (line :: lines)
  = match line_token JSON_parse line with
    | Some tok => tok :: tokens_of JSON_parse lines
    | None => tokens_of JSON_parse lines
    end.
Proof. done. Qed.

(** One line, by what it adds to the answer. *)
Lemma handle_line_token (acc : string * State) (line : string) :
  handle_line JSON_parse acc line
  = if line_throws JSON_parse line then None
    else Some match line_token JSON_parse line with
              | Some tok =>
                  (acc.1 ++ tok,
                   setMessages (show_response (acc.1 ++ tok)) acc.2)
              | None => acc
              end.
Proof.
  unfold handle_line, line_throws, line_token.
  destruct (startsWith line "data: "); [|done].
  destruct (JSON_parse (slice_from 6 line)) as [data|]; [|done].
  by destruct (String.eqb (data_type data) "token").
Qed.

(** The state a run over the lines ends in: the text is that of the tokens
    read before the first line that throws, shown as one message after the
    messages that were there. *)
Lemma handle_lines_messages (lines : list string) (toks : list string)
    (pre : list Message) (st : State) :
  (forall m, last pre = Some m -> role m <> "assistant") ->
  messages st = (pre ++ answer_of toks)%list ->
  let r := handle_lines JSON_parse (String.concat "" toks, st) lines in
  let toks' :=
    (toks ++ tokens_of JSON_parse (lines_before_throw JSON_parse lines))%list
  in
  r.1.1 = String.concat "" toks'
  /\ messages r.1.2 = (pre ++ answer_of toks')%list
  /\ r.2 = no_throw JSON_parse lines.
Proof.
  intros Hpre. revert toks st.
  induction lines as [|line lines IH]; intros toks st Hst.
  - cbn. by rewrite app_nil_r.
  - cbn [handle_lines lines_before_throw no_throw forallb].
    rewrite handle_line_token.
    destruct (line_throws JSON_parse line); cbn [negb andb].
    + cbn. by rewrite app_nil_r.
    + rewrite tokens_of_cons.
      destruct (line_token JSON_parse line) as [tok|]; [|by apply IH].
      cbn [fst snd]. rewrite <- concat_snoc.
      replace (toks ++ tok
                 :: tokens_of JSON_parse (lines_before_throw JSON_parse lines))%list
        with ((toks ++ [tok])
              ++ tokens_of JSON_parse (lines_before_throw JSON_parse lines))%list
        by (by rewrite <- app_assoc).
      apply IH. unfold setMessages. cbn [messages]. rewrite Hst.
      by apply show_response_answer.
Qed.

(** The messages [handleQuery] leaves for a query with text: those
    that were there, the user's query, then the answer, one assistant
    message holding the contents of the token lines in a row (no message
    when no token came), and the error message when the request failed, a
    read failed or a line did not parse. Lines after the first that does
    not parse are not read. *)
Theorem handleQuery_messages (token : string) (st : State) :
  all_whitespace (query st) = false ->
  messages (handleQuery fetch JSON_parse token st).1
  = (messages st ++ [mkMessage "user" (query st)]
     ++ match fetch "http://localhost:8000/api/v1/chat/query" token (query st)
        with
        | None => [error_message]
        | Some (chunks, ended) =>
            let lines := stream_lines chunks in
            answer_of
              (tokens_of JSON_parse (lines_before_throw JSON_parse lines))
            ++ (if ended && no_throw JSON_parse lines then []
                else [error_message])
        end)%list.
Proof.
  intros Htext%ChatFacts.trim_keeps_text. unfold handleQuery, truthy.
  destruct (String.eqb_spec (trim (query st)) "") as [He|_]; [done|].
  cbn [negb fst].
  destruct (fetch _ token (query st)) as [[chunks ended]|].
  - rewrite handle_chunks_lines.
    match goal with
    | |- context [handle_lines JSON_parse (_, ?s) ?ls] =>
        pose proof (handle_lines_messages ls []
                      (messages st ++ [mkMessage "user" (query st)])%list s)
          as Hrun
    end.
    cbn [String.concat] in Hrun.
    destruct Hrun as (_ & Hmsgs & Hok).
    { intros m. rewrite last_snoc. by intros [= <-]. }
    { cbn. by rewrite app_nil_r. }
    cbn [app] in Hmsgs.
    destruct (handle_lines JSON_parse _ (stream_lines chunks)) as [acc ok].
    cbn [fst snd] in Hmsgs, Hok. subst ok.
    cbn zeta. rewrite andb_comm.
    destruct (no_throw JSON_parse (stream_lines chunks)), ended;
      cbn [andb setLoading setMessages messages];
      rewrite Hmsgs, <- ?app_assoc; by rewrite ?app_nil_r.
  - cbn. by rewrite <- app_assoc.
Qed.

End Stream.

Lemma handleQuery_messages_witness :
  all_whitespace (query Samples.asking_state) = false
  /\ messages (handleQuery Samples.sample_fetch Samples.sample_parse "jwt"
                 Samples.asking_state).1
     = (messages Samples.asking_state
        ++ [mkMessage "user" (query Samples.asking_state)]
        ++ match
             Samples.sample_fetch "http://localhost:8000/api/v1/chat/query"
               "jwt" (query Samples.asking_state)
           with
           | None => [error_message]
           | Some (chunks, ended) =>
               let lines := stream_lines chunks in
               answer_of
                 (tokens_of Samples.sample_parse
                    (lines_before_throw Samples.sample_parse lines))
               ++ (if ended && no_throw Samples.sample_parse lines then []
                   else [error_message])
           end)%list.
Proof.
  split; [reflexivity|].
  apply (handleQuery_messages Samples.sample_fetch Samples.sample_parse "jwt"
           Samples.asking_state).
  reflexivity.
Defined.

End ChatStreamFacts.

Module ChatUploadFacts.
Import JsStr Chat ChatUpload.

Section Upload.

Variable upload : DocumentManager.File -> DocumentManagerOps.Outcome unit.

(** [handleFileUpload] of the chat sends whatever file was chosen,
    with no check of its type or size, and reports the end with one
    alert, never an empty one: the fixed text on success, the detail of
    the error or [Upload failed] otherwise. It leaves the conversation
    alone and ends with the upload flag down. With no file chosen it does
    nothing. *)
Theorem handleFileUpload_outcome (chosen : option DocumentManager.File)
    (st : State) :
  let r := handleFileUpload upload chosen st in
  match chosen with
  | None => r = (st, [])
  | Some selectedFile =>
      uploading r.1 = false
      /\ query r.1 = query st
      /\ messages r.1 = messages st
      /\ loading r.1 = loading st
      /\ exists message,
           r.2 = [PostUpload selectedFile; Alert message]
           /\ message <> ""
           /\ match upload selectedFile with
              | DocumentManagerOps.Succeeded _ =>
                  message = "Document uploaded successfully!"
                  /\ file r.1 = None
              | DocumentManagerOps.Rejected detail =>
                  message
                  = DocumentManagerOps.or_default detail "Upload failed"
                  /\ file r.1 = file st
              end
  end.
Proof.
  unfold handleFileUpload. destruct chosen as [selectedFile|]; [|done].
  destruct (upload selectedFile) as [[]|detail]; cbn [fst snd];
    (do 4 (split; [done|])); eexists; (split; [done|]); (split; [|done]).
  - done.
  - by apply DocumentManagerOpsFacts.or_default_nonempty.
Qed.

End Upload.

End ChatUploadFacts.

Module ProfileFacts.
Import JsStr Profile.

Section Requests.

Variable change_password :
  string -> string -> DocumentManagerOps.Outcome unit.

(** [handleChangePassword] sends the request exactly when the new
    password and its confirmation are equal and at least 6 characters
    long, and then once, with the passwords as typed. Held back, it shows
    the message of the first check that failed (the mismatch first) and
    leaves the three fields and the loading flag as they were. Sent, it
    ends with the loading flag down; the three fields are emptied on
    success and kept on failure, which shows a non-empty error. *)
Theorem handleChangePassword_outcome (st : State) :
  let r := handleChangePassword change_password st in
  let fields s := (currentPassword s, newPassword s, confirmPassword s) in
  if String.eqb (newPassword st) (confirmPassword st)
     && (6 <=? String.length (newPassword st))%nat
  then
    List.filter is_request r.2
    = [PostChangePassword (currentPassword st) (newPassword st)]
    /\ loading r.1 = false
    /\ match change_password (currentPassword st) (newPassword st) with
       | DocumentManagerOps.Succeeded _ =>
           fields r.1 = ("", "", "")
           /\ success r.1 = "Password changed successfully!"
           /\ error r.1 = ""
       | DocumentManagerOps.Rejected detail =>
           fields r.1 = fields st /\ success r.1 = "" /\ error r.1 <> ""
       end
  else
    List.filter is_request r.2 = []
    /\ loading r.1 = loading st
    /\ fields r.1 = fields st
    /\ success r.1 = ""
    /\ error r.1
       = if String.eqb (newPassword st) (confirmPassword st)
         then "New password must be at least 6 characters"
         else "New passwords do not match".
Proof.
  unfold handleChangePassword.
  destruct (String.eqb (newPassword st) (confirmPassword st)); [|done].
  cbn [negb andb].
  destruct (Nat.ltb_spec (String.length (newPassword st)) 6) as [Hlt|Hge].
  - assert ((6 <=? String.length (newPassword st))%nat = false) as ->
      by (apply Nat.leb_gt; lia).
    done.
  - assert ((6 <=? String.length (newPassword st))%nat = true) as ->
      by (apply Nat.leb_le; lia).
    destruct (change_password _ _) as [[]|detail]; cbn [fst snd];
      repeat split; try done.
    by apply DocumentManagerOpsFacts.or_default_nonempty.
Qed.

End Requests.

End ProfileFacts.

Module AppFacts.
Import JsStr App.

Section WithUser.

Context {User : Type}.

Lemma handle_in_step (storage : Storage) (app : State User * Storage)
    (ev : Event User) :
  in_step storage app -> in_step storage (handle app ev).
Proof.
  intros [Htok Hrest].
  destruct ev as [authToken userData|]; split;
    cbn [handle handleLogin handleLogout fst snd token].
  - by rewrite lookup_insert_eq.
  - intros k Hk. rewrite lookup_insert_ne by done. by apply Hrest.
  - by rewrite lookup_delete_eq.
  - intros k Hk. rewrite lookup_delete_ne by done. by apply Hrest.
Qed.

Lemma fold_handle_in_step (storage : Storage) (events : list (Event User))
    (app : State User * Storage) :
  in_step storage app -> in_step storage (fold_left handle events app).
Proof.
  revert app. induction events as [|ev events IH]; intros app Happ; [done|].
  simpl. by apply IH, handle_in_step.
Qed.

(** The user data after the events: that of the last one when it was a
    login. *)
Lemma fold_handle_user (events : list (Event User))
    (app : State User * Storage) :
  user (fold_left handle events app).1
  = match last events with
    | Some (Login _ userData) => Some userData
    | Some Logout => None
    | None => user app.1
    end.
Proof.
  revert app. induction events as [|ev events IH]; intros app; [done|].
  cbn [fold_left]. rewrite IH.
  destruct events as [|ev' events]; [by destruct ev|].
  rewrite last_cons_cons.
  destruct (last (ev' :: events)) as [[]|] eqn:Hlast; [done..|].
  by apply last_None in Hlast.
Qed.

(** Whatever logins and logouts happen after the page was loaded,
    the token cell and the [token] key of the storage agree, and no other
    key of the storage is touched. So a reload gives the same token back,
    but not the user data, which is only there when the last event was a
    login; and the login form is shown exactly when no non-empty token is
    stored. *)
Theorem run_token_mirrors_storage (storage : Storage)
    (events : list (Event User)) :
  let r := run storage events in
  token r.1 = r.2 !! "token"
  /\ (forall k : string, k <> "token" -> r.2 !! k = storage !! k)
  /\ initial (User := User) r.2 = mkState (token r.1) None
  /\ user r.1
     = match last events with
       | Some (Login _ userData) => Some userData
       | _ => None
       end
  /\ (shows_login r.1 = false
      <-> exists t : string, r.2 !! "token" = Some t /\ t <> "").
Proof.
  pose proof (fold_handle_in_step storage events (initial storage, storage))
    as [Htok Hrest]; [done|].
  fold (run storage events) in Htok, Hrest. cbn zeta.
  split; [done|]. split; [done|]. split.
  { unfold initial. by rewrite Htok. }
  split.
  { unfold run. rewrite fold_handle_user.
    by destruct (last events) as [[]|]. }
  unfold shows_login, truthy. rewrite <- Htok.
  destruct (token (run storage events).1) as [t|].
  - destruct (String.eqb_spec t "") as [->|Hne]; simpl.
    + split; [done|]. by intros (t' & [= <-] & Ht').
    + split; [by exists t|done].
  - split; [done|]. by intros (t' & [=] & _).
Qed.

End WithUser.

End AppFacts.

Module ChatSessionsFacts.
Import JsStr ChatSessions.

Lemma strict_eq_true (a b : Id) : strict_eq a b = true <-> a = b.
Proof. unfold strict_eq. by rewrite bool_decide_eq_true. Qed.

Lemma strict_eq_false (a b : Id) : strict_eq a b = false <-> a <> b.
Proof. unfold strict_eq. by rewrite bool_decide_eq_false. Qed.

Lemma substring_to_length (n : nat) (s : string) :
  String.length (substring_to n s) = Nat.min n (String.length s).
Proof.
  unfold substring_to. revert s.
  induction n as [|n IH]; intros [|c s]; simpl; [done..|].
  by rewrite IH.
Qed.

Lemma substring_to_prefix (n : nat) (s : string) :
  exists rest, s = substring_to n s ++ rest.
Proof.
  unfold substring_to. revert s.
  induction n as [|n IH]; intros [|c s]; simpl.
  - by exists "".
  - by eexists.
  - by exists "".
  - destruct (IH s) as [rest Hrest]. exists rest.
    rewrite PyStrFacts.append_cons. by rewrite <- Hrest.
Qed.

Lemma filter_sublist {A : Type} (keep : A -> bool) (l : list A) :
  List.filter keep l `sublist_of` l.
Proof.
  induction l as [|x l IH]; simpl; [done|].
  destruct (keep x); by constructor.
Qed.

Section Requests.

Variable confirm : string -> bool.
Variable delete_session : Id -> bool.

Lemma deleteChatSession_sessions (sessionId : Id) (st : State) :
  chatSessions (deleteChatSession confirm delete_session sessionId st).1
  = if confirm "Are you sure you want to delete this chat?"
       && delete_session sessionId
    then List.filter (fun s => negb (strict_eq (id s) sessionId))
           (chatSessions st)
    else chatSessions st.
Proof.
  unfold deleteChatSession.
  destruct (confirm _); [|done]. destruct (delete_session _); [|done].
  cbn [negb andb fst]. by destruct (strict_eq _ _).
Qed.

(** [deleteChatSession] takes out of the list the sessions whose [id]
    is the one given, and only after the user agreed and the request went
    through; the others stay, in their order. The open conversation is
    closed (no current session, no messages) exactly when it is the one
    deleted. Declined or failed, the state is as before. *)
Theorem deleteChatSession_outcome (sessionId : Id) (st : State) :
  let r := deleteChatSession confirm delete_session sessionId st in
  chatSessions r.1 `sublist_of` chatSessions st
  /\ (forall s, s ∈ chatSessions st -> id s <> sessionId ->
        s ∈ chatSessions r.1)
  /\ if confirm "Are you sure you want to delete this chat?"
        && delete_session sessionId
     then
       (forall s, s ∈ chatSessions r.1 -> id s <> sessionId)
       /\ (currentSessionId r.1, messages r.1)
          = if strict_eq (currentSessionId st) sessionId then (null, [])
            else (currentSessionId st, messages st)
     else r.1 = st.
Proof.
  cbn zeta. rewrite deleteChatSession_sessions.
  unfold deleteChatSession.
  destruct (confirm _); cbn [negb andb fst].
  2: { split; [done|]. by split. }
  destruct (delete_session sessionId); cbn [fst].
  2: { split; [done|]. by split. }
  split; [apply filter_sublist|]. split.
  - intros s Hin Hid. apply list_elem_of_In, filter_In. split.
    + by apply list_elem_of_In.
    + by apply negb_true_iff, strict_eq_false.
  - split.
    + intros s [_ Hs]%list_elem_of_In%filter_In.
      by apply negb_true_iff, strict_eq_false in Hs.
    + by destruct (strict_eq (currentSessionId st) sessionId).
Qed.

(** A session the list knows only by [_id] (its [id] is missing or
    empty, and differs from its [_id]) is still in the list after it was
    deleted from the sidebar, which passes [session.id || session._id]:
    the filter compares [id] alone. *)
Theorem deleteChatSession_keeps_session_without_id (s : Session)
    (st : State) :
  s ∈ chatSessions st ->
  id_truthy (id s) = false ->
  _id s <> id s ->
  s ∈ chatSessions (deleteChatSession confirm delete_session (key s) st).1.
Proof.
  intros Hin Hid Hne. rewrite deleteChatSession_sessions.
  destruct (_ && _); [|done].
  apply list_elem_of_In, filter_In. split; [by apply list_elem_of_In|].
  apply negb_true_iff, strict_eq_false.
  unfold key, or_else. rewrite Hid. congruence.
Qed.

End Requests.

Lemma deleteChatSession_keeps_session_without_id_witness :
  Scenarios.mongo_session
  ∈ chatSessions
      (deleteChatSession Scenarios.always_yes Scenarios.delete_goes_through
         (key Scenarios.mongo_session) Scenarios.sessions_state).1.
Proof.
  apply (deleteChatSession_keeps_session_without_id Scenarios.always_yes
           Scenarios.delete_goes_through Scenarios.mongo_session
           Scenarios.sessions_state).
  - apply list_elem_of_In. simpl. tauto.
  - reflexivity.
  - discriminate.
Defined.

(** The title given to a new chat is the first query when that has
    at most 50 characters, else its first 50 characters and three dots,
    so never more than 53 characters. The update changes nothing but
    titles, and only of the sessions whose key is the session the query
    went to, and only when the chat had no messages. *)
Theorem update_title_outcome (sessionId : Id) (shown : list Chat.Message)
    (query : string) (sessions : list Session) :
  (String.length (session_title query) <= 53)%nat
  /\ (if (50 <? String.length query)%nat
      then exists rest,
             query = substring_to 50 query ++ rest
             /\ String.length (substring_to 50 query) = 50%nat
             /\ session_title query = substring_to 50 query ++ "..."
      else session_title query = query)
  /\ Forall2
       (fun s s' =>
          id s' = id s /\ _id s' = _id s
          /\ title s'
             = if id_truthy sessionId && bool_decide (shown = [])
                  && strict_eq (key s) sessionId
               then session_title query else title s)
       sessions (update_title sessionId shown query sessions).
Proof.
  split; [|split].
  - unfold session_title.
    destruct (Nat.ltb_spec 50 (String.length query)) as [Hlong|Hshort];
      [|lia].
    rewrite PyStrFacts.length_append, substring_to_length.
    change (String.length "...") with 3%nat. lia.
  - unfold session_title.
    destruct (Nat.ltb_spec 50 (String.length query)) as [Hlong|Hshort];
      [|done].
    destruct (substring_to_prefix 50 query) as [rest Hrest].
    exists rest. split; [done|]. split; [|done].
    rewrite substring_to_length. lia.
  - unfold update_title.
    assert ((length shown =? 0)%nat = bool_decide (shown = [])) as ->.
    { destruct shown; [done|]. symmetry. by apply bool_decide_eq_false_2. }
    destruct (id_truthy sessionId && bool_decide (shown = [])); cbn [andb].
    + induction sessions as [|s sessions IH]; [constructor|].
      cbn [map]. constructor; [|done].
      by destruct (strict_eq (key s) sessionId).
    + induction sessions as [|s sessions IH]; by constructor.
Qed.

End ChatSessionsFacts.
